(** * Tollow: the typing-session input engine of [TypingPractice.tsx]

    A shallow embedding of the React component
    [src/components/TypingPractice.tsx]: its state hooks become a record,
    its event handlers become functions on that record, and the callbacks it
    hands to [setTimeout] become a queue of pending closures.

    Conventions of the embedding.
    - A JavaScript string is the list of its UTF-16 code units; [content[i]]
      is list lookup, [for (const ch of text)] walks code points.
    - [Map<number, string>] is a [gmap nat jsstring]; only [set], [delete],
      [size] and the multiset of entries are observed, never the order.
    - [Date.now()] is an argument [now : Z] of every handler.
    - A handler sees the state of the latest render; the one callback that
      runs later ([setTimeout(..., 10)] in [handleCompositionEnd]) keeps the
      values it captured.
    - JavaScript numbers: the metrics divide counts by counts.  [js_div] and
      [js_mul] take the quotient and the product exactly (in [Q]); [0/0] is
      [NaN] and [x/0] is infinite.  [js_div64] and [js_mul64] round each
      result to binary64 as the engine does, and [handleTick64],
      [progress64] and [run64] are the component with those figures.  The
      results on [handleTick] and [progress] evaluate quotients that
      binary64 computes exactly ([0/n], [n/n]) or with a strict margin
      (rounding up to 100, at least 1/(2L) above 99.5); where a figure
      depends on the rounding, as its range does, the result is stated for
      the binary64 version.  The two versions agree on everything but the
      sampled [wpm] and [accuracy].
    - Positions are natural numbers: every decrement in the source is
      guarded by [currentPosition > 0], and a click index is the
      [data-index] of a rendered span. *)

From Stdlib Require Import ZArith QArith Qround String Ascii.
From Stdlib Require Import Qpower.
From stdpp Require Import gmap list fin_maps.

Local Open Scope nat_scope.

(** ** JavaScript strings *)

Definition code_unit := N.
Abbreviation jsstring := (list code_unit).

Definition SPACE : code_unit := 32%N.
Definition LF : code_unit := 10%N.
Definition TAB : code_unit := 9%N.
Definition CR : code_unit := 13%N.

(** ASCII literals for examples: ["a b"] is the string with units 97, 32, 98. *)
Definition js (s : string) : jsstring :=
  List.map N_of_ascii (list_ascii_of_string s).

Definition is_lead_surrogate (u : code_unit) : bool :=
  ((55296 <=? u) && (u <=? 56319))%N.

Definition is_trail_surrogate (u : code_unit) : bool :=
  ((56320 <=? u) && (u <=? 57343))%N.

(** The string iterator behind [for (const rawCh of text)]: one element per
    code point, a well-formed surrogate pair being one two-unit element. *)
Fixpoint codePoints (s : jsstring) : list jsstring :=
  match s with
  | [] => []
  | u :: rest =>
      match rest with
      | v :: rest' =>
          if is_lead_surrogate u && is_trail_surrogate v
          then [u; v] :: codePoints rest'
          else [u] :: codePoints rest
      | [] => [[u]]
      end
  end.

(** [srcCh !== ch] where [srcCh = content[pos]] is a one-unit string or
    [undefined]. *)
Definition strict_eq_src (srcCh : option code_unit) (ch : jsstring) : bool :=
  match srcCh with
  | Some u => bool_decide (ch = [u])
  | None => false
  end.

(** [ch === ' ' || ch === '\n' || ch === '\t'] *)
Definition is_blank (ch : jsstring) : bool :=
  bool_decide (ch = [SPACE]) || bool_decide (ch = [LF]) || bool_decide (ch = [TAB]).

(** White space and line terminators stripped by [String.prototype.trim]. *)
Definition is_js_whitespace (u : code_unit) : bool :=
  ((9 <=? u) && (u <=? 13) || (u =? 32) || (u =? 160) || (u =? 5760)
   || (8192 <=? u) && (u <=? 8202) || (u =? 8232) || (u =? 8233)
   || (u =? 8239) || (u =? 8287) || (u =? 12288) || (u =? 65279))%N.

Fixpoint trimStart (s : jsstring) : jsstring :=
  match s with
  | u :: rest => if is_js_whitespace u then trimStart rest else s
  | [] => []
  end.

Definition trim (s : jsstring) : jsstring :=
  rev (trimStart (rev (trimStart s))).

(** ** JavaScript numbers, as far as the metrics use them *)

Inductive number :=
| NaN
| Infinity
| NegInfinity
| Num (q : Q).

(** A count as a number: lengths and sizes are below [2^53], where the
    conversion is exact. *)
Definition of_nat (n : nat) : number := Num (inject_Z (Z.of_nat n)).

Definition js_div (a b : number) : number :=
  match a, b with
  | Num x, Num y =>
      if Qeq_bool y 0 then
        match (x ?= 0)%Q with
        | Eq => NaN
        | Gt => Infinity
        | Lt => NegInfinity
        end
      else Num (x / y)
  | NaN, _ | _, NaN => NaN
  | Num _, _ => Num 0
  | _, Num y => if Qle_bool 0 y then a else match a with Infinity => NegInfinity | _ => Infinity end
  | _, _ => NaN
  end.

Definition js_mul (a b : number) : number :=
  match a, b with
  | Num x, Num y => Num (x * y)
  | NaN, _ | _, NaN => NaN
  | Num x, inf | inf, Num x =>
      match (x ?= 0)%Q with
      | Eq => NaN
      | Gt => inf
      | Lt => match inf with Infinity => NegInfinity | _ => Infinity end
      end
  | Infinity, Infinity | NegInfinity, NegInfinity => Infinity
  | _, _ => NegInfinity
  end.

(** [Math.round]: the nearest integer, ties towards +infinity. *)
Definition Math_round (a : number) : number :=
  match a with
  | Num x => Num (inject_Z (Qfloor (x + (1 # 2))))
  | _ => a
  end.

(** [a > 0] *)
Definition js_gt0 (a : number) : bool :=
  match a with
  | Num x => negb (Qle_bool x 0)
  | Infinity => true
  | _ => false
  end.

(** ** Component state *)

(** What a [processInput] closure captures from the render it was created
    in: [currentPosition], [typedMap] and [isStarted]. *)
Record render := Render {
  r_currentPosition : nat;
  r_typedMap : gmap nat jsstring;
  r_isStarted : bool
}.

(** The [useState] cells, the two composition refs, and the callbacks
    waiting in [setTimeout(..., 10)], oldest first. *)
Record state := State {
  currentPosition : nat;
  typedMap : gmap nat jsstring;
  isStarted : bool;
  startTime : Z;
  wpm : number;
  accuracy : number;
  errors : nat;
  isComposing : bool;
  compositionBuffer : jsstring;
  timeouts : list (render * jsstring)
}.

Definition initial : state :=
  State 0 ∅ false 0%Z (of_nat 0) (of_nat 100) 0 false [] [].

Definition render_of (s : state) : render :=
  Render (currentPosition s) (typedMap s) (isStarted s).

Definition setCurrentPosition (p : nat) (s : state) : state :=
  State p (typedMap s) (isStarted s) (startTime s) (wpm s) (accuracy s)
        (errors s) (isComposing s) (compositionBuffer s) (timeouts s).

Definition setTypedMap (m : gmap nat jsstring) (s : state) : state :=
  State (currentPosition s) m (isStarted s) (startTime s) (wpm s) (accuracy s)
        (errors s) (isComposing s) (compositionBuffer s) (timeouts s).

Definition setIsStarted (b : bool) (s : state) : state :=
  State (currentPosition s) (typedMap s) b (startTime s) (wpm s) (accuracy s)
        (errors s) (isComposing s) (compositionBuffer s) (timeouts s).

Definition setStartTime (t : Z) (s : state) : state :=
  State (currentPosition s) (typedMap s) (isStarted s) t (wpm s) (accuracy s)
        (errors s) (isComposing s) (compositionBuffer s) (timeouts s).

Definition setWpm (w : number) (s : state) : state :=
  State (currentPosition s) (typedMap s) (isStarted s) (startTime s) w (accuracy s)
        (errors s) (isComposing s) (compositionBuffer s) (timeouts s).

Definition setAccuracy (a : number) (s : state) : state :=
  State (currentPosition s) (typedMap s) (isStarted s) (startTime s) (wpm s) a
        (errors s) (isComposing s) (compositionBuffer s) (timeouts s).

Definition setErrors (e : nat) (s : state) : state :=
  State (currentPosition s) (typedMap s) (isStarted s) (startTime s) (wpm s) (accuracy s)
        e (isComposing s) (compositionBuffer s) (timeouts s).

Definition setComposing (b : bool) (buf : jsstring) (s : state) : state :=
  State (currentPosition s) (typedMap s) (isStarted s) (startTime s) (wpm s) (accuracy s)
        (errors s) b buf (timeouts s).

Definition setTimeouts (q : list (render * jsstring)) (s : state) : state :=
  State (currentPosition s) (typedMap s) (isStarted s) (startTime s) (wpm s) (accuracy s)
        (errors s) (isComposing s) (compositionBuffer s) q.

(** ** Events *)

(** [inputType] of a [beforeinput] event, up to what the handler tells
    apart: the two literal types, any other type starting with ["insert"],
    and everything else (including a missing type). *)
Inductive inputType :=
| insertFromPaste
| insertParagraph
| insertOther
| notInsert.

Inductive key :=
| Backspace
| Delete
| ArrowLeft
| ArrowRight
| Home
| End_
| OtherKey.

Inductive event :=
| BeforeInput (ty : inputType) (data : option jsstring) (clipboard : option jsstring)
| Input (textContent : jsstring)
| KeyDown (k : key)
| CompositionStart
| CompositionUpdate (data : jsstring)
| CompositionEnd (data : jsstring)
| Click (target : option nat)
| Timeout
| Tick.

Section Engine.

(** [textContent.content], fixed for the lifetime of the component. *)
Variable content : jsstring.

(** *** [processInput] *)

(** The [for ... of] loop of [processInput], lines 80-94. *)
Fixpoint commitLoop (chars : list jsstring) (pos : nat) (next : gmap nat jsstring)
  : nat * gmap nat jsstring :=
  match chars with
  | [] => (pos, next)
  | rawCh :: rest =>
      if bool_decide (length content ≤ pos) then (pos, next)
      else
        let srcCh := content !! pos in
        let ch := if bool_decide (rawCh = [CR]) then [] else rawCh in
        if bool_decide (ch = []) then commitLoop rest pos next
        else if is_blank ch && negb (strict_eq_src srcCh ch)
        then commitLoop rest pos next
        else commitLoop rest (pos + 1) (<[pos := ch]> next)
  end.

(** [processInput(text)] as created in render [r], run at time [now]; its
    [set...] calls act on the current state [s]. *)
Definition processInput (r : render) (now : Z) (text : jsstring) (s : state) : state :=
  if bool_decide (text = []) then s
  else
    let s1 := if r_isStarted r then s else setStartTime now (setIsStarted true s) in
    let '(pos, next) := commitLoop (codePoints text) (r_currentPosition r) (r_typedMap r) in
    setCurrentPosition pos (setTypedMap next s1).

(** *** Composition handlers *)

Definition handleCompositionStart (s : state) : state :=
  setComposing true [] s.

Definition handleCompositionUpdate (data : jsstring) (s : state) : state :=
  setComposing (isComposing s) data s.

(** [e.data && e.data.trim() !== ''] guards the deferred [processInput]. *)
Definition handleCompositionEnd (data : jsstring) (s : state) : state :=
  let s1 := setComposing false (compositionBuffer s) s in
  let s2 :=
    if negb (bool_decide (data = [])) && negb (bool_decide (trim data = []))
    then setTimeouts (timeouts s1 ++ [(render_of s, data)]) s1
    else s1 in
  setComposing false [] s2.

(** The oldest [setTimeout(..., 10)] callback runs. *)
Definition handleTimeout (now : Z) (s : state) : state :=
  match timeouts s with
  | [] => s
  | (r, data) :: q => processInput r now data (setTimeouts q s)
  end.

(** *** [beforeinput] and [input] *)

Definition handleBeforeInput (now : Z) (ty : inputType)
    (data clipboard : option jsstring) (s : state) : state :=
  if isComposing s then s
  else
    let direct :=
      match data with
      | Some data =>
          if bool_decide (data = []) then s
          else
            let srcCh := content !! currentPosition s in
            let d := if bool_decide (data = [CR]) then [] else data in
            if bool_decide (d = []) then s
            else if is_blank d && negb (strict_eq_src srcCh d) then s
            else processInput (render_of s) now d s
      | None => s
      end in
    match ty with
    | notInsert => s
    | insertFromPaste =>
        match clipboard with
        | Some pasted => processInput (render_of s) now pasted s
        | None => direct
        end
    | insertParagraph =>
        if strict_eq_src (content !! currentPosition s) [LF]
        then processInput (render_of s) now [LF] s
        else s
    | insertOther => direct
    end.

Definition handleInput (now : Z) (text : jsstring) (s : state) : state :=
  if isComposing s then s
  else processInput (render_of s) now text s.

(** *** Keyboard and pointer *)

Definition handleKeyDown (k : key) (s : state) : state :=
  if isComposing s then s
  else
    match k with
    | Backspace =>
        if bool_decide (0 < currentPosition s) then
          let np := currentPosition s - 1 in
          setCurrentPosition np (setTypedMap (delete np (typedMap s)) s)
        else s
    | Delete =>
        if bool_decide (currentPosition s < length content)
        then setTypedMap (delete (currentPosition s) (typedMap s)) s
        else s
    | ArrowLeft =>
        if bool_decide (0 < currentPosition s)
        then setCurrentPosition (currentPosition s - 1) s else s
    | ArrowRight =>
        if bool_decide (currentPosition s < length content)
        then setCurrentPosition (currentPosition s + 1) s else s
    | Home => setCurrentPosition 0 s
    | End_ => setCurrentPosition (length content) s
    | OtherKey => s
    end.

(** [target] is [Some i] when the click hit a [remaining-char] span, [i]
    being its [data-index]; the handler does not clamp. *)
Definition handleClick (target : option nat) (s : state) : state :=
  match target with
  | Some index => setCurrentPosition index s
  | None => s
  end.

(** The [data-index] attributes [getDisplayText] writes into the background
    layer, one span per position of the reference text. *)
Definition renderedIndices : list nat := seq 0 (length content).

(** *** Metrics *)

(** [Array.from(typedMap.entries()).filter(([idx, ch]) => ch !== content[idx]).length] *)
Definition errorCount (m : gmap nat jsstring) : nat :=
  length (List.filter (λ e : nat * jsstring, negb (strict_eq_src (content !! e.1) e.2))
                      (map_to_list m)).

(** The [setInterval] callback; the interval exists only while
    [isStarted && startTime > 0].  Quotients are exact here; [handleTick64]
    below rounds them to binary64. *)
Definition handleTick (now : Z) (s : state) : state :=
  if isStarted s && bool_decide (0 < startTime s)%Z then
    let timeElapsed := (now - startTime s)%Z in
    let minutes := js_div (Num (inject_Z timeElapsed)) (Num 60000) in
    let s1 :=
      if js_gt0 minutes
      then setWpm (Math_round (js_div (of_nat (size (typedMap s))) minutes)) s
      else s in
    let totalTyped := size (typedMap s) in
    let errorCount := errorCount (typedMap s) in
    let s2 := setErrors errorCount s1 in
    if bool_decide (0 < totalTyped)
    then setAccuracy
           (Math_round (js_mul (js_div (of_nat (totalTyped - errorCount)) (of_nat totalTyped))
                               (of_nat 100))) s2
    else s2
  else s.

(** [Math.round((typedMap.size / textContent.content.length) * 100)], the
    progress figure computed in the render, with the exact quotient;
    [progress64] below rounds it to binary64. *)
Definition progress (s : state) : number :=
  Math_round (js_mul (js_div (of_nat (size (typedMap s))) (of_nat (length content)))
                     (of_nat 100)).

(** *** Dispatch *)

Definition handle (now : Z) (ev : event) (s : state) : state :=
  match ev with
  | BeforeInput ty data clipboard => handleBeforeInput now ty data clipboard s
  | Input text => handleInput now text s
  | KeyDown k => handleKeyDown k s
  | CompositionStart => handleCompositionStart s
  | CompositionUpdate data => handleCompositionUpdate data s
  | CompositionEnd data => handleCompositionEnd data s
  | Click target => handleClick target s
  | Timeout => handleTimeout now s
  | Tick => handleTick now s
  end.

(** Events produced by typing, pasting and editing keys. *)
Definition is_input_event (ev : event) : bool :=
  match ev with
  | BeforeInput _ _ _ | Input _ | KeyDown _ => true
  | _ => false
  end.

(** A run of the component: events with the clock reading at each. *)
Definition run (evs : list (Z * event)) (s : state) : state :=
  foldl (λ s e, handle e.1 e.2 s) s evs.

End Engine.

(** ** Runs the specification talks about *)

(** States reached from the initial one by forward commits only, that is by
    calls of [processInput] in the current render. *)
Inductive forward_reachable (content : jsstring) : state → Prop :=
| forward_initial : forward_reachable content initial
| forward_commit s now text :
    forward_reachable content s →
    forward_reachable content (processInput content (render_of s) now text s).

(** A click can only hit a span that [getDisplayText] rendered. *)
Definition valid_event (content : jsstring) (ev : event) : Prop :=
  match ev with
  | Click (Some index) => index ∈ renderedIndices content
  | _ => True
  end.

(** Committing characters one by one, each in its own [processInput] call. *)
Definition commitEach (content : jsstring) (now : Z) (chars : list jsstring)
    (s : state) : state :=
  foldl (λ s ch, processInput content (render_of s) now ch s) s chars.

(** Typing the reference text itself, [content[0]], [content[1]], ..., into a
    fresh session. *)
Definition commitVerbatim (content : jsstring) (now : Z) : state :=
  commitEach content now ((λ u, [u]) <$> content) initial.

(** ** Invariants *)

(** The cursor, and every cursor captured by a pending callback, is at most
    the length of the reference text. *)
Definition positions_in_range (content : jsstring) (s : state) : Prop :=
  currentPosition s ≤ length content
  ∧ Forall (λ t : render * jsstring, r_currentPosition t.1 ≤ length content) (timeouts s).


(** ** Three statements of the specification, word for word *)

(** Whitespace guard: with reference ["a b"] and the cursor at 1, committing
    ["x"] leaves map and cursor unchanged. *)
Definition whitespace_guard_claim : Prop :=
  ∀ (s : state) (now : Z),
    currentPosition s = 1 →
    let s' := processInput (js "a b") (render_of s) now (js "x") s in
    typedMap s' = typedMap s ∧ currentPosition s' = currentPosition s.

(** Every character other than space, newline and tab is committed, a
    character being one element of the string iterator. *)
Definition non_blank_claim : Prop :=
  ∀ (content : jsstring) (s : state) (now : Z) (ch : jsstring),
    codePoints ch = [ch] →
    is_blank ch = false →
    currentPosition s < length content →
    let s' := processInput content (render_of s) now ch s in
    typedMap s' !! currentPosition s = Some ch
    ∧ currentPosition s' = currentPosition s + 1.

(** Round trip: for every reference text, typing it verbatim gives no
    errors, accuracy 100 and progress 100. *)
Definition verbatim_claim : Prop :=
  ∀ (content : jsstring) (now later : Z),
    let s := handleTick content later (commitVerbatim content now) in
    errors s = 0 ∧ accuracy s = Num 100 ∧ progress content s = Num 100.

(** ** Display: [updateCharPositions] and [getDisplayText] *)

(** A [{ left, top }] pair, in pixels. *)
Record offset := Offset {
  o_left : Q;
  o_top : Q
}.

Definition VERTICAL_ADJUST_PX : Q := 8.
Definition TYPED_CHAR_ADJUST_PX : Q := -2.

(** [updateCharPositions] over the rectangle of the container and those of
    the [.remaining-char] spans in document order: the n-th span is stored
    under key n, as its offset from the container. *)
Definition updateCharPositions (containerRect : offset) (chars : list offset)
  : gmap nat offset :=
  map_seq 0 ((λ rect, Offset (o_left rect - o_left containerRect)
                             (o_top rect - o_top containerRect)) <$> chars).

(** One instance of the template appended to [html]:
    [<span class="remaining-char" data-index="${i}" style="${visibilityStyle}">${ch}</span>],
    [hidden] standing for the style [visibility: hidden;]. *)
Record remainingChar := RemainingChar {
  data_index : nat;
  hidden : bool;
  glyph : code_unit
}.

(** The templates appended to [overlayHtml], each with the values it
    interpolates: a typed character ([error-char] or [correct-char]), the
    [current-char] bar and the [cursor-indicator]. *)
Inductive overlayPiece :=
| TypedChar (isError : bool) (index : nat) (left top : Q) (typedChar : jsstring)
| CurrentChar (left top : Q)
| CursorIndicator (left top : Q).

Section Display.

Variable content : jsstring.
Variable charPositions : gmap nat offset.

(** The body of the [for] loop at index [i], first the piece for [html]. *)
Definition backgroundAt (typedMap : gmap nat jsstring) (i : nat) (ch : code_unit)
  : remainingChar :=
  RemainingChar i (bool_decide (is_Some (typedMap !! i))) ch.

(** ... then what it appends to [overlayHtml]. *)
Definition overlayAt (typedMap : gmap nat jsstring) (i : nat) : list overlayPiece :=
  match typedMap !! i, charPositions !! i with
  | Some typedChar, Some p =>
      let isError := negb (strict_eq_src (content !! i) typedChar) in
      [TypedChar isError i (o_left p) (o_top p + TYPED_CHAR_ADJUST_PX)%Q typedChar]
  | _, _ => []
  end.

(** The cursor layer, lines 201-216: at the cursor when it is inside the
    text and measured, otherwise after the last character. *)
Definition cursorLayer (currentPosition : nat) : list overlayPiece :=
  if bool_decide (0 < size charPositions) then
    match (if bool_decide (currentPosition < length content)
           then charPositions !! currentPosition else None) with
    | Some p =>
        [CurrentChar (o_left p) (o_top p + VERTICAL_ADJUST_PX)%Q;
         CursorIndicator (o_left p - 2)%Q (o_top p + VERTICAL_ADJUST_PX)%Q]
    | None =>
        if bool_decide (0 < length content) then
          let lastIndex := length content - 1 in
          match charPositions !! lastIndex with
          | Some last =>
              [CurrentChar (o_left last + 16)%Q (o_top last + VERTICAL_ADJUST_PX)%Q;
               CursorIndicator (o_left last + 14)%Q (o_top last + VERTICAL_ADJUST_PX)%Q]
          | None => []
          end
        else []
    end
  else [].

(** [getDisplayText()]: the pieces of [html] and of [overlayHtml], in the
    order they are appended.  The source concatenates them into two strings
    without escaping. *)
Definition getDisplayText (s : state) : list remainingChar * list overlayPiece :=
  (imap (backgroundAt (typedMap s)) content,
   concat (overlayAt (typedMap s) <$> seq 0 (length content))
   ++ cursorLayer (currentPosition s)).

End Display.

Definition is_typed_piece (p : overlayPiece) : bool :=
  match p with TypedChar _ _ _ _ _ => true | _ => false end.

Definition is_error_piece (p : overlayPiece) : bool :=
  match p with TypedChar isError _ _ _ _ => isError | _ => false end.


(** ** More vocabulary *)

(** Arrow keys, Home, End and clicks. *)
Definition is_navigation (ev : event) : bool :=
  match ev with
  | KeyDown ArrowLeft | KeyDown ArrowRight | KeyDown Home | KeyDown End_ => true
  | Click _ => true
  | _ => false
  end.

(** Events that neither queue a callback nor run one. *)
Definition keeps_timeouts (ev : event) : bool :=
  match ev with
  | CompositionEnd _ | Timeout => false
  | _ => true
  end.

(** Every key of the map, here and in every render a pending callback
    captured, is a position of the reference text; cursors are in range. *)
Definition keys_in_range (content : jsstring) (s : state) : Prop :=
  positions_in_range content s
  ∧ (∀ i, is_Some (typedMap s !! i) → i < length content)
  ∧ Forall (λ t : render * jsstring,
              ∀ i, is_Some (r_typedMap t.1 !! i) → i < length content) (timeouts s).

(** A non-empty map is only ever seen in a started session; a render that
    was started was captured from a session that still is. *)
Definition typed_implies_started (s : state) : Prop :=
  (typedMap s ≠ ∅ → isStarted s = true)
  ∧ Forall (λ t : render * jsstring,
              (r_typedMap t.1 ≠ ∅ → r_isStarted t.1 = true)
              ∧ (r_isStarted t.1 = true → isStarted s = true)) (timeouts s).

(** A sampled metric is a finite integer in the given range. *)
Definition integer_between (lo hi : Z) (a : number) : Prop :=
  ∃ z : Z, a = Num (inject_Z z) ∧ (lo ≤ z ≤ hi)%Z.

Definition integer_from (lo : Z) (a : number) : Prop :=
  ∃ z : Z, a = Num (inject_Z z) ∧ (lo ≤ z)%Z.

(** The sampled metrics are finite: [wpm] a non-negative integer,
    [accuracy] an integer percentage, [errors] at most the text length. *)
Definition metrics_sane (content : jsstring) (s : state) : Prop :=
  integer_from 0 (wpm s)
  ∧ integer_between 0 100 (accuracy s)
  ∧ errors s ≤ length content.

(** ** The figures in binary64

    [js_div] and [js_mul] above take quotient and product exactly.  The
    engine rounds the result of every operation to the nearest binary64
    value; this part models that rounding on rationals and gives the
    metrics tick and the progress figure with it. *)

(** [2^e] for any integer [e]. *)
Definition pow2 (e : Z) : Q := (2 ^ e)%Q.

(** The binary exponent of a positive rational: [2^e <= q < 2^(e+1)]. *)
Definition ilog2 (q : Q) : Z :=
  let e0 := (Z.log2 (Qnum q) - Z.log2 (Zpos (Qden q)))%Z in
  if Qle_bool (pow2 e0) q then e0 else (e0 - 1)%Z.

(** The nearest integer, ties to the even one. *)
Definition round_half_even (x : Q) : Z :=
  let f := Qfloor x in
  match (x - inject_Z f ?= 1 # 2)%Q with
  | Lt => f
  | Gt => (f + 1)%Z
  | Eq => if Z.even f then f else (f + 1)%Z
  end.

(** The binary64 value nearest to a positive rational: a 53-bit significand,
    exponents from -1022 (below that, multiples of [2^-1074]), and overflow
    ([None]) from [2^1024]. *)
Definition b64_pos (q : Q) : option Q :=
  let e := Z.max (ilog2 q) (-1022) in
  let ulp := pow2 (e - 52) in
  let r := (inject_Z (round_half_even (q / ulp)) * ulp)%Q in
  if Qle_bool (pow2 1024) r then None else Some r.

(** Rounding of the exact result of an operation, as IEEE 754 prescribes. *)
Definition b64 (q : Q) : number :=
  match (q ?= 0)%Q with
  | Eq => Num 0
  | Gt => match b64_pos q with Some r => Num r | None => Infinity end
  | Lt => match b64_pos (- q) with Some r => Num (- r) | None => NegInfinity end
  end.

(** [a / b] and [a * b] as the engine computes them. *)
Definition js_div64 (a b : number) : number :=
  match js_div a b with Num q => b64 q | other => other end.
Definition js_mul64 (a b : number) : number :=
  match js_mul a b with Num q => b64 q | other => other end.


Section Engine64.

Variable content : jsstring.

(** The [setInterval] callback, lines 47-55, every quotient and product
    rounded to binary64. *)
Definition handleTick64 (now : Z) (s : state) : state :=
  if isStarted s && bool_decide (0 < startTime s)%Z then
    let timeElapsed := (now - startTime s)%Z in
    let minutes := js_div64 (Num (inject_Z timeElapsed)) (Num 60000) in
    let s1 :=
      if js_gt0 minutes
      then setWpm (Math_round (js_div64 (of_nat (size (typedMap s))) minutes)) s
      else s in
    let totalTyped := size (typedMap s) in
    let errorCount := errorCount content (typedMap s) in
    let s2 := setErrors errorCount s1 in
    if bool_decide (0 < totalTyped)%nat
    then setAccuracy
           (Math_round (js_mul64 (js_div64 (of_nat (totalTyped - errorCount)) (of_nat totalTyped))
                                 (of_nat 100))) s2
    else s2
  else s.

(** The progress figure of line 240 in binary64. *)
Definition progress64 (s : state) : number :=
  Math_round (js_mul64 (js_div64 (of_nat (size (typedMap s))) (of_nat (length content)))
                       (of_nat 100)).

(** The component with binary64 figures: only the tick differs. *)
Definition handle64 (now : Z) (ev : event) (s : state) : state :=
  match ev with
  | Tick => handleTick64 now s
  | _ => handle content now ev s
  end.

Definition run64 (evs : list (Z * event)) (s : state) : state :=
  foldl (λ s e, handle64 e.1 e.2 s) s evs.

End Engine64.

(** Two states that differ at most in the sampled [wpm] and [accuracy]. *)
Definition same_but_figures (s1 s2 : state) : Prop :=
  currentPosition s1 = currentPosition s2 ∧ typedMap s1 = typedMap s2
  ∧ isStarted s1 = isStarted s2 ∧ startTime s1 = startTime s2
  ∧ errors s1 = errors s2
  ∧ isComposing s1 = isComposing s2 ∧ compositionBuffer s1 = compositionBuffer s2
  ∧ timeouts s1 = timeouts s2.

(** * Properties *)

(** ** Projections of [processInput] *)

Section ProcessInputFacts.

Variable content : jsstring.

Lemma processInput_empty r now s : processInput content r now [] s = s.
Proof. reflexivity. Qed.

Lemma processInput_typedMap r now text s :
  text ≠ [] →
  typedMap (processInput content r now text s)
  = (commitLoop content (codePoints text) (r_currentPosition r) (r_typedMap r)).2.
Proof.
  intros Hne. unfold processInput. rewrite bool_decide_eq_false_2 by done.
  destruct (commitLoop _ _ _ _) as [pos next]. reflexivity.
Qed.

Lemma processInput_currentPosition r now text s :
  text ≠ [] →
  currentPosition (processInput content r now text s)
  = (commitLoop content (codePoints text) (r_currentPosition r) (r_typedMap r)).1.
Proof.
  intros Hne. unfold processInput. rewrite bool_decide_eq_false_2 by done.
  destruct (commitLoop _ _ _ _) as [pos next]. reflexivity.
Qed.

Lemma processInput_isStarted r now text s :
  text ≠ [] →
  isStarted (processInput content r now text s) = isStarted s || negb (r_isStarted r).
Proof.
  intros Hne. unfold processInput. rewrite bool_decide_eq_false_2 by done.
  destruct (commitLoop _ _ _ _) as [pos next].
  destruct (r_isStarted r); cbn; [by rewrite orb_false_r | by rewrite orb_true_r].
Qed.

Lemma processInput_startTime r now text s :
  text ≠ [] →
  startTime (processInput content r now text s)
  = if r_isStarted r then startTime s else now.
Proof.
  intros Hne. unfold processInput. rewrite bool_decide_eq_false_2 by done.
  destruct (commitLoop _ _ _ _) as [pos next].
  by destruct (r_isStarted r).
Qed.

Lemma processInput_rest r now text s :
  wpm (processInput content r now text s) = wpm s
  ∧ accuracy (processInput content r now text s) = accuracy s
  ∧ errors (processInput content r now text s) = errors s
  ∧ isComposing (processInput content r now text s) = isComposing s
  ∧ compositionBuffer (processInput content r now text s) = compositionBuffer s
  ∧ timeouts (processInput content r now text s) = timeouts s.
Proof.
  unfold processInput. case_bool_decide; [done |].
  destruct (commitLoop _ _ _ _) as [pos next].
  by destruct (r_isStarted r).
Qed.

(** One iteration of the loop, by cases on the incoming character. *)

Lemma commitLoop_at_end chars pos next :
  length content ≤ pos → commitLoop content chars pos next = (pos, next).
Proof.
  intros Hge. destruct chars as [| rawCh rest]; [done |].
  cbn. by rewrite bool_decide_eq_true_2.
Qed.

Lemma commitLoop_CR rest pos next :
  commitLoop content ([CR] :: rest) pos next = commitLoop content rest pos next.
Proof.
  cbn. case_bool_decide; [| done].
  symmetry. by apply commitLoop_at_end.
Qed.

Lemma commitLoop_blank_mismatch ch rest pos next :
  is_blank ch = true →
  strict_eq_src (content !! pos) ch = false →
  commitLoop content (ch :: rest) pos next = commitLoop content rest pos next.
Proof.
  intros Hb Hne. cbn [commitLoop].
  case_bool_decide; [symmetry; by apply commitLoop_at_end |].
  assert (ch ≠ [CR] ∧ ch ≠ []) as [H1 H2].
  { unfold is_blank in Hb. split; intros ->; done. }
  rewrite (bool_decide_eq_false_2 (ch = [CR])) by done.
  rewrite (bool_decide_eq_false_2 (ch = [])) by done.
  by rewrite Hb, Hne.
Qed.

Lemma commitLoop_blank_match ch rest pos next :
  is_blank ch = true →
  strict_eq_src (content !! pos) ch = true →
  commitLoop content (ch :: rest) pos next
  = commitLoop content rest (pos + 1) (<[pos := ch]> next).
Proof.
  intros Hb Heq. cbn [commitLoop].
  assert (pos < length content).
  { destruct (content !! pos) eqn:E; [| done]. by eapply lookup_lt_Some. }
  rewrite bool_decide_eq_false_2 by lia.
  assert (ch ≠ [CR] ∧ ch ≠ []) as [H1 H2].
  { unfold is_blank in Hb. split; intros ->; done. }
  rewrite (bool_decide_eq_false_2 (ch = [CR])) by done.
  rewrite (bool_decide_eq_false_2 (ch = [])) by done.
  by rewrite Hb, Heq.
Qed.

Lemma commitLoop_non_blank ch rest pos next :
  pos < length content →
  ch ≠ [] → ch ≠ [CR] → is_blank ch = false →
  commitLoop content (ch :: rest) pos next
  = commitLoop content rest (pos + 1) (<[pos := ch]> next).
Proof.
  intros Hlt H2 H1 Hb. cbn [commitLoop].
  rewrite bool_decide_eq_false_2 by lia.
  rewrite (bool_decide_eq_false_2 (ch = [CR])) by done.
  rewrite (bool_decide_eq_false_2 (ch = [])) by done.
  by rewrite Hb.
Qed.

Lemma codePoints_unit (u : code_unit) : codePoints [u] = [[u]].
Proof. reflexivity. Qed.

Lemma is_blank_unit (u : code_unit) :
  is_blank [u] = true ↔ u = SPACE ∨ u = LF ∨ u = TAB.
Proof.
  unfold is_blank. rewrite !orb_true_iff, !bool_decide_eq_true.
  split.
  - intros [[H | H] | H]; injection H as ->; auto.
  - intros [-> | [-> | ->]]; auto.
Qed.

Lemma strict_eq_src_unit (o : option code_unit) (u : code_unit) :
  strict_eq_src o [u] = true ↔ o = Some u.
Proof.
  destruct o as [v |]; cbn; [| done].
  rewrite bool_decide_eq_true. split; congruence.
Qed.

End ProcessInputFacts.

(** ** Validation of one character *)

(** C1. At a cursor position [p < L], a commit attempt with a space, a
    newline or a tab that differs from [content[p]] is dropped: the map and
    the cursor stay as they are, both when the character arrives alone and
    when it is followed by more text; when it equals [content[p]] it is
    recorded at [p] and the cursor moves to [p + 1]. *)
Theorem blank_commit_guard (content : jsstring) (s : state) (now : Z) (u : code_unit) :
  currentPosition s < length content →
  u = SPACE ∨ u = LF ∨ u = TAB →
  let s' := processInput content (render_of s) now [u] s in
  (content !! currentPosition s ≠ Some u →
     typedMap s' = typedMap s
     ∧ currentPosition s' = currentPosition s
     ∧ ∀ rest, commitLoop content ([u] :: rest) (currentPosition s) (typedMap s)
               = commitLoop content rest (currentPosition s) (typedMap s))
  ∧ (content !! currentPosition s = Some u →
     typedMap s' = <[currentPosition s := [u]]> (typedMap s)
     ∧ currentPosition s' = currentPosition s + 1
     ∧ ∀ rest, commitLoop content ([u] :: rest) (currentPosition s) (typedMap s)
               = commitLoop content rest (currentPosition s + 1)
                   (<[currentPosition s := [u]]> (typedMap s))).
Proof.
  intros Hlt Hu s'.
  apply is_blank_unit in Hu.
  assert (Hne : [u] ≠ @nil code_unit) by done.
  split; intros Hsrc.
  - assert (Hmis : strict_eq_src (content !! currentPosition s) [u] = false).
    { apply not_true_is_false. by rewrite strict_eq_src_unit. }
    subst s'.
    rewrite processInput_typedMap, processInput_currentPosition by done.
    rewrite codePoints_unit. cbn [render_of r_currentPosition r_typedMap].
    rewrite commitLoop_blank_mismatch by done.
    repeat split. intros rest. by apply commitLoop_blank_mismatch.
  - apply strict_eq_src_unit in Hsrc.
    subst s'.
    rewrite processInput_typedMap, processInput_currentPosition by done.
    rewrite codePoints_unit. cbn [render_of r_currentPosition r_typedMap].
    rewrite commitLoop_blank_match by done.
    repeat split. intros rest. by apply commitLoop_blank_match.
Qed.

Lemma blank_commit_guard_witness :
  let content := js "a b" in
  let s := setCurrentPosition 1 initial in
  currentPosition s < length content
  ∧ typedMap (processInput content (render_of s) 5%Z [SPACE] s) = {[ 1 := [SPACE] ]}
  ∧ currentPosition (processInput content (render_of s) 5%Z [SPACE] s) = 2.
Proof.
  intros content s.
  assert (Hlt : currentPosition s < length content) by (vm_compute; lia).
  split; [exact Hlt |].
  destruct (blank_commit_guard content s 5%Z SPACE Hlt (or_introl eq_refl)) as [_ Hc].
  destruct (Hc eq_refl) as (Hm & Hp & _).
  split; [exact Hm | exact Hp].
Defined.

(** C2, refuted as stated: with reference ["a b"], after ["a"] has been typed
    the cursor is at 1; committing ["x"] there records it at position 1 and
    moves the cursor to 2. *)
Lemma whitespace_guard_example_fails :
  let content := js "a b" in
  let s := processInput content (render_of initial) 1000%Z (js "a") initial in
  let s' := processInput content (render_of s) 1001%Z (js "x") s in
  currentPosition s = 1
  ∧ typedMap s' !! 1 = Some (js "x")
  ∧ currentPosition s' = 2
  ∧ typedMap s' ≠ typedMap s
  ∧ ¬ whitespace_guard_claim.
Proof.
  intros content s s'.
  assert (H1 : typedMap s' !! 1 = Some (js "x")) by (vm_compute; reflexivity).
  assert (H0 : typedMap s !! 1 = None) by (vm_compute; reflexivity).
  split; [reflexivity |].
  split; [exact H1 |].
  split; [vm_compute; reflexivity |].
  split.
  - intros Heq. rewrite Heq in H1. congruence.
  - intros Hall. destruct (Hall s 1001%Z eq_refl) as [Heq _].
    fold content in Heq. fold s' in Heq. rewrite Heq in H1. congruence.
Qed.

(** C2, amended: with reference ["a b"] and the cursor at 1, ["x"] is
    accepted (recorded at 1, cursor 2); the guard is about typed blanks: a
    space typed at position 0, where the reference has ["a"], changes
    neither map nor cursor. *)
Theorem nonblank_over_space_committed (s : state) (now : Z) :
  let content := js "a b" in
  (currentPosition s = 1 →
     typedMap (processInput content (render_of s) now (js "x") s)
       = <[1 := js "x"]> (typedMap s)
     ∧ currentPosition (processInput content (render_of s) now (js "x") s) = 2)
  ∧ (currentPosition s = 0 →
     typedMap (processInput content (render_of s) now (js " ") s) = typedMap s
     ∧ currentPosition (processInput content (render_of s) now (js " ") s) = 0).
Proof.
  intros content. split; intros Hp.
  - rewrite processInput_typedMap, processInput_currentPosition by done.
    cbn [render_of r_currentPosition r_typedMap]. rewrite Hp.
    change (codePoints (js "x")) with [js "x"].
    by rewrite commitLoop_non_blank by (done || (vm_compute; lia)).
  - rewrite processInput_typedMap, processInput_currentPosition by done.
    cbn [render_of r_currentPosition r_typedMap]. rewrite Hp.
    change (codePoints (js " ")) with [js " "].
    by rewrite commitLoop_blank_mismatch by done.
Qed.

Lemma nonblank_over_space_committed_witness :
  let s := setCurrentPosition 1 initial in
  currentPosition s = 1
  ∧ typedMap (processInput (js "a b") (render_of s) 7%Z (js "x") s) = {[ 1 := js "x" ]}
  ∧ currentPosition (processInput (js "a b") (render_of s) 7%Z (js "x") s) = 2.
Proof.
  intros s.
  split; [reflexivity |].
  exact (proj1 (nonblank_over_space_committed s 7%Z) eq_refl).
Defined.

(** C3, refuted as stated: a carriage return is none of space, newline and
    tab, yet [processInput] turns it into the empty string and skips it. *)
Lemma carriage_return_dropped :
  let content := js "ab" in
  let s' := processInput content (render_of initial) 1000%Z [CR] initial in
  is_blank [CR] = false
  ∧ typedMap s' = ∅
  ∧ currentPosition s' = 0
  ∧ ¬ non_blank_claim.
Proof.
  intros content s'. repeat split.
  intros Hall.
  destruct (Hall content initial 1000%Z [CR]) as [_ Hp]; try done.
  vm_compute; lia.
Qed.

(** C3, amended: at [p < L] a character that is neither space, newline, tab
    nor carriage return is always committed, whatever the reference holds at
    [p]: the map records it at [p], other positions keep their entries, and
    the cursor moves to [p + 1]; a carriage return is dropped. *)
Theorem non_blank_commit (content : jsstring) (s : state) (now : Z) (ch : jsstring) :
  codePoints ch = [ch] →
  is_blank ch = false →
  currentPosition s < length content →
  let s' := processInput content (render_of s) now ch s in
  (ch ≠ [CR] →
     typedMap s' = <[currentPosition s := ch]> (typedMap s)
     ∧ currentPosition s' = currentPosition s + 1)
  ∧ (ch = [CR] →
     typedMap s' = typedMap s ∧ currentPosition s' = currentPosition s).
Proof.
  intros Hcp Hb Hlt s'.
  assert (Hne : ch ≠ []) by (intros ->; done).
  subst s'.
  rewrite processInput_typedMap, processInput_currentPosition by done.
  rewrite Hcp. cbn [render_of r_currentPosition r_typedMap].
  split.
  - intros Hcr. by rewrite commitLoop_non_blank.
  - intros ->. by rewrite commitLoop_CR.
Qed.

Lemma non_blank_commit_witness :
  let content := js "cat" in
  let s := setCurrentPosition 1 initial in
  codePoints (js "o") = [js "o"]
  ∧ is_blank (js "o") = false
  ∧ currentPosition s < length content
  ∧ typedMap (processInput content (render_of s) 3%Z (js "o") s) = {[ 1 := js "o" ]}
  ∧ currentPosition (processInput content (render_of s) 3%Z (js "o") s) = 2.
Proof.
  intros content s.
  assert (Hlt : currentPosition s < length content) by (vm_compute; lia).
  split; [reflexivity |]. split; [reflexivity |]. split; [exact Hlt |].
  split.
  - exact (proj1 (proj1 (non_blank_commit content s 3%Z (js "o") eq_refl eq_refl Hlt)
                        ltac:(done))).
  - exact (proj2 (proj1 (non_blank_commit content s 3%Z (js "o") eq_refl eq_refl Hlt)
                        ltac:(done))).
Defined.

(** ** Session start *)

(** C4, the code at the failing input: pasting a single space into a fresh
    session over reference ["ab"] commits nothing (the space does not match
    ["a"]), yet the session is started and the start time is set. *)
Theorem rejected_paste_starts_session :
  let content := js "ab" in
  let s' := handle content 1000%Z (BeforeInput insertFromPaste None (Some (js " "))) initial in
  typedMap s' = ∅
  ∧ currentPosition s' = 0
  ∧ isStarted s' = true
  ∧ startTime s' = 1000%Z.
Proof. repeat split. Qed.

(** The sibling path: the same space arriving as direct input is filtered
    before [processInput] is called, and the session stays unstarted. *)
Lemma rejected_direct_blank_keeps_session (content : jsstring) (s : state) (now : Z)
    (ty : inputType) (d : jsstring) :
  ty = insertOther →
  is_blank d = true →
  strict_eq_src (content !! currentPosition s) d = false →
  handle content now (BeforeInput ty (Some d) None) s = s.
Proof.
  intros -> Hb Hne. cbn. unfold handleBeforeInput.
  destruct (isComposing s); [done |].
  assert (d ≠ [CR] ∧ d ≠ []) as [H1 H2].
  { unfold is_blank in Hb. split; intros ->; done. }
  rewrite (bool_decide_eq_false_2 (d = [])) by done.
  rewrite (bool_decide_eq_false_2 (d = [CR])) by done.
  rewrite (bool_decide_eq_false_2 (d = [])) by done.
  by rewrite Hb, Hne.
Qed.

(** Past the end of the text nothing can be committed, but a non-empty
    input still starts the session. *)
Lemma input_at_end_starts_session (content : jsstring) (s : state) (now : Z) (text : jsstring) :
  text ≠ [] →
  length content ≤ currentPosition s →
  isStarted s = false →
  let s' := processInput content (render_of s) now text s in
  typedMap s' = typedMap s ∧ currentPosition s' = currentPosition s
  ∧ isStarted s' = true ∧ startTime s' = now.
Proof.
  intros Hne Hge Hst s'. subst s'.
  rewrite processInput_typedMap, processInput_currentPosition,
    processInput_isStarted, processInput_startTime by done.
  cbn [render_of r_currentPosition r_typedMap r_isStarted].
  rewrite commitLoop_at_end by done. by rewrite Hst.
Qed.

(** ** Composition *)

Lemma trimStart_blank (data : jsstring) :
  Forall (λ u, is_js_whitespace u = true) data → trimStart data = [].
Proof.
  induction 1 as [| u rest Hu _ IH]; [done |].
  cbn. by rewrite Hu.
Qed.

Lemma trim_blank (data : jsstring) :
  Forall (λ u, is_js_whitespace u = true) data → trim data = [].
Proof.
  intros Hall. unfold trim. by rewrite (trimStart_blank data Hall).
Qed.

(** C5. While a composition is open, [beforeinput] (typed characters and
    paste), [input] and [keydown] events leave the whole state as it is;
    composition updates only replace the buffer; composition end changes
    neither map nor cursor itself and queues at most its final data; and
    when that queued callback runs, the data goes through [processInput]
    exactly as a paste of the same text would. *)
Theorem composition_shields_state (content : jsstring) (s : state) (now : Z) :
  isComposing s = true →
  (∀ ev, is_input_event ev = true → handle content now ev s = s)
  ∧ (∀ data,
       let s' := handle content now (CompositionUpdate data) s in
       typedMap s' = typedMap s ∧ currentPosition s' = currentPosition s
       ∧ timeouts s' = timeouts s ∧ isComposing s' = true)
  ∧ (∀ data,
       let s' := handle content now (CompositionEnd data) s in
       typedMap s' = typedMap s ∧ currentPosition s' = currentPosition s
       ∧ isComposing s' = false
       ∧ (timeouts s' = timeouts s ∨ timeouts s' = timeouts s ++ [(render_of s, data)]))
  ∧ (∀ data later,
       timeouts s = [] → data ≠ [] → trim data ≠ [] →
       handle content later Timeout (handle content now (CompositionEnd data) s)
       = handle content later (BeforeInput insertFromPaste None (Some data))
           (setComposing false [] s)).
Proof.
  intros Hc. repeat split.
  - intros [ty data clip | text | k | | | | | |]; try done; intros _; cbn.
    + unfold handleBeforeInput. by rewrite Hc.
    + unfold handleInput. by rewrite Hc.
    + unfold handleKeyDown. by rewrite Hc.
  - done.
  - cbn. unfold handleCompositionEnd. by case_match.
  - cbn. unfold handleCompositionEnd. by case_match.
  - cbn. unfold handleCompositionEnd. case_match; cbn; auto.
  - intros data later Hq Hne Htrim. cbn.
    unfold handleCompositionEnd, handleTimeout, handleBeforeInput.
    rewrite (bool_decide_eq_false_2 (data = [])) by done.
    rewrite (bool_decide_eq_false_2 (trim data = [])) by done.
    cbn. rewrite Hq. cbn.
    unfold processInput. case_bool_decide; [done |].
    cbn [render_of r_currentPosition r_typedMap r_isStarted currentPosition typedMap
         isStarted setComposing].
    destruct (commitLoop _ _ _ _) as [pos next].
    destruct s; cbn in *; subst. by destruct isStarted0.
Qed.

Lemma composition_shields_state_witness :
  let content := js "ab" in
  let s := handle content 1%Z CompositionStart initial in
  isComposing s = true
  ∧ handle content 2%Z (KeyDown Backspace) s = s
  ∧ handle content 2%Z (BeforeInput insertOther (Some (js "a")) None) s = s.
Proof.
  intros content s.
  assert (Hc : isComposing s = true) by reflexivity.
  split; [exact Hc |].
  split.
  - exact (proj1 (composition_shields_state content s 2%Z Hc) (KeyDown Backspace) eq_refl).
  - exact (proj1 (composition_shields_state content s 2%Z Hc)
             (BeforeInput insertOther (Some (js "a")) None) eq_refl).
Defined.

(** C10. A composition result made only of white space (every unit is one
    that [trim] strips: space, tab, newline, ideographic space ...) is
    discarded at composition end: nothing is queued for [processInput], and
    map, cursor, started flag and start time are unchanged, whatever the
    reference holds at the cursor. *)
Theorem blank_composition_discarded (content : jsstring) (s : state) (now : Z)
    (data : jsstring) :
  Forall (λ u, is_js_whitespace u = true) data →
  let s' := handle content now (CompositionEnd data) s in
  typedMap s' = typedMap s
  ∧ currentPosition s' = currentPosition s
  ∧ isStarted s' = isStarted s
  ∧ startTime s' = startTime s
  ∧ timeouts s' = timeouts s.
Proof.
  intros Hall s'. subst s'. cbn. unfold handleCompositionEnd.
  rewrite (trim_blank data Hall).
  rewrite (bool_decide_eq_true_2 ([] = [])) by done.
  by rewrite andb_false_r.
Qed.

Lemma blank_composition_discarded_witness :
  let content := js "a b" in
  let s := handle content 3%Z CompositionStart
             (processInput content (render_of initial) 1%Z (js "a") initial) in
  Forall (λ u, is_js_whitespace u = true) (js " ")
  ∧ content !! currentPosition s = Some SPACE
  ∧ typedMap (handle content 4%Z (CompositionEnd (js " ")) s) = typedMap s
  ∧ currentPosition (handle content 4%Z (CompositionEnd (js " ")) s) = 1
  ∧ timeouts (handle content 4%Z (CompositionEnd (js " ")) s) = [].
Proof.
  intros content s.
  assert (Hall : Forall (λ u, is_js_whitespace u = true) (js " ")).
  { apply Forall_cons. split; [reflexivity | apply Forall_nil_2]. }
  destruct (blank_composition_discarded content s 4%Z (js " ") Hall)
    as (Hm & Hp & _ & _ & Hq).
  split; [exact Hall |].
  split; [reflexivity |].
  split; [exact Hm |].
  split; [exact Hp | exact Hq].
Defined.

(** ** Cursor and map under the loop *)

Section LoopInvariants.

Variable content : jsstring.

(** What the loop can do to a cursor and a map: the cursor only moves
    forward and never past the end, positions outside the stretch it
    crossed keep their entries, positions inside it all have one. *)
Lemma commitLoop_spec chars : ∀ pos next pos' next',
  commitLoop content chars pos next = (pos', next') →
  pos ≤ pos'
  ∧ (pos ≤ length content → pos' ≤ length content)
  ∧ (∀ i, i < pos ∨ pos' ≤ i → next' !! i = next !! i)
  ∧ (∀ i, pos ≤ i < pos' → is_Some (next' !! i)).
Proof.
  induction chars as [| rawCh rest IH]; intros pos next pos' next' Hrun.
  - injection Hrun as <- <-. repeat split; [lia | done | intros; lia].
  - cbn [commitLoop] in Hrun.
    case_bool_decide as Hend.
    { injection Hrun as <- <-. repeat split; [lia | done | intros; lia]. }
    destruct (bool_decide ((if bool_decide (rawCh = [CR]) then [] else rawCh) = [])).
    { by apply IH. }
    destruct (is_blank _ && negb _).
    { by apply IH. }
    apply IH in Hrun as (Hle & Hbound & Hout & Hin).
    split; [lia |]. split; [lia |]. split.
    + intros i Hi. rewrite Hout by lia. apply lookup_insert_ne. lia.
    + intros i Hi. destruct (decide (i = pos)) as [-> | Hne].
      * rewrite Hout by lia. rewrite lookup_insert_eq. by eexists.
      * apply Hin. lia.
Qed.

Lemma processInput_cursor_bound r now text s :
  r_currentPosition r ≤ length content →
  currentPosition s ≤ length content →
  currentPosition (processInput content r now text s) ≤ length content.
Proof.
  intros Hr Hs. destruct (decide (text = [])) as [-> | Hne]; [done |].
  rewrite processInput_currentPosition by done.
  destruct (commitLoop _ _ _ _) as [pos next] eqn:Hrun.
  apply commitLoop_spec in Hrun as (_ & Hb & _). cbn. auto.
Qed.

(** Forward commits keep every entry strictly before the cursor. *)
Lemma forward_reachable_inv s :
  forward_reachable content s →
  isComposing s = false
  ∧ ∀ i, currentPosition s ≤ i → typedMap s !! i = None.
Proof.
  induction 1 as [| s now text _ [IHc IHm]]; [done |].
  split.
  - destruct (processInput_rest content (render_of s) now text s) as (_ & _ & _ & -> & _).
    exact IHc.
  - intros i Hi. destruct (decide (text = [])) as [-> | Hne]; [by apply IHm |].
    rewrite processInput_currentPosition in Hi by done.
    rewrite processInput_typedMap by done.
    destruct (commitLoop _ _ _ _) as [pos next] eqn:Hrun.
    apply commitLoop_spec in Hrun as (Hle & _ & Hout & _).
    cbn in *. rewrite Hout by lia. apply IHm. lia.
Qed.

End LoopInvariants.

(** C6. In a state reached by forward commits only, let a commit succeed,
    moving the cursor from [p] to [p + 1].  The commit added an entry at
    [p], where there was none; backspace right after it puts the cursor
    back at [p] and gives back the map as it was before the commit, every
    position other than [p] keeping what it had.  At cursor 0 backspace
    changes nothing. *)
Theorem backspace_inverts_commit (content : jsstring) (s : state) (now now' : Z)
    (text : jsstring) :
  forward_reachable content s →
  let s1 := processInput content (render_of s) now text s in
  let s2 := handle content now' (KeyDown Backspace) s1 in
  currentPosition s1 = currentPosition s + 1 →
  (typedMap s !! currentPosition s = None
   ∧ is_Some (typedMap s1 !! currentPosition s)
   ∧ currentPosition s2 = currentPosition s
   ∧ typedMap s2 = typedMap s
   ∧ ∀ i, i ≠ currentPosition s → typedMap s2 !! i = typedMap s1 !! i)
  ∧ (∀ s0, currentPosition s0 = 0 → handle content now' (KeyDown Backspace) s0 = s0).
Proof.
  intros Hreach s1 s2 Hadv. split.
  - destruct (forward_reachable_inv content s Hreach) as [Hc Hfresh].
    assert (Hne : text ≠ []).
    { intros ->. subst s1. rewrite processInput_empty in Hadv. lia. }
    assert (Hc1 : isComposing s1 = false).
    { subst s1.
      destruct (processInput_rest content (render_of s) now text s) as (_ & _ & _ & -> & _).
      exact Hc. }
    assert (Hm1 : typedMap s1 =
                  (commitLoop content (codePoints text) (currentPosition s) (typedMap s)).2).
    { subst s1. by rewrite processInput_typedMap. }
    assert (Hp1 : currentPosition s1 =
                  (commitLoop content (codePoints text) (currentPosition s) (typedMap s)).1).
    { subst s1. by rewrite processInput_currentPosition. }
    destruct (commitLoop _ _ _ _) as [pos next] eqn:Hrun. cbn in Hm1, Hp1.
    apply commitLoop_spec in Hrun as (_ & _ & Hout & Hin).
    assert (Hs2 : s2 = setCurrentPosition (currentPosition s)
                         (setTypedMap (delete (currentPosition s) (typedMap s1)) s1)).
    { subst s2. cbn. unfold handleKeyDown. rewrite Hc1.
      rewrite bool_decide_eq_true_2 by lia.
      replace (currentPosition s1 - 1) with (currentPosition s) by lia. done. }
    split; [apply Hfresh; lia |].
    split; [rewrite Hm1; apply Hin; lia |].
    split; [by rewrite Hs2 |].
    split.
    + rewrite Hs2. cbn. apply map_eq. intros i.
      destruct (decide (i = currentPosition s)) as [-> | Hi].
      * rewrite lookup_delete_eq. symmetry. apply Hfresh. lia.
      * rewrite lookup_delete_ne by done. rewrite Hm1. apply Hout. lia.
    + intros i Hi. rewrite Hs2. cbn. by rewrite lookup_delete_ne.
  - intros s0 H0. cbn. unfold handleKeyDown.
    destruct (isComposing s0); [done |].
    by rewrite H0.
Qed.

Lemma backspace_inverts_commit_witness :
  let content := js "hi there" in
  let s := processInput content (render_of initial) 10%Z (js "hi ") initial in
  let s1 := processInput content (render_of s) 20%Z (js "x") s in
  let s2 := handle content 30%Z (KeyDown Backspace) s1 in
  forward_reachable content s
  ∧ currentPosition s1 = currentPosition s + 1
  ∧ currentPosition s2 = 3
  ∧ typedMap s2 = typedMap s.
Proof.
  intros content s s1 s2.
  assert (Hreach : forward_reachable content s).
  { apply forward_commit. apply forward_initial. }
  assert (Hadv : currentPosition s1 = currentPosition s + 1) by reflexivity.
  destruct (proj1 (backspace_inverts_commit content s 20%Z 30%Z (js "x") Hreach Hadv))
    as (_ & _ & Hp & Hm & _).
  split; [exact Hreach |].
  split; [exact Hadv |].
  split; [exact Hp | exact Hm].
Defined.

(** ** Bounded cursor *)

Section Bounded.

Variable content : jsstring.

Lemma positions_in_range_initial : positions_in_range content initial.
Proof. split; [cbn; lia | apply Forall_nil_2]. Qed.

Lemma handle_positions_in_range now ev s :
  valid_event content ev →
  positions_in_range content s →
  positions_in_range content (handle content now ev s).
Proof.
  intros Hev [Hpos Hq].
  assert (Hproc : ∀ text, positions_in_range content (processInput content (render_of s) now text s)).
  { intros text. split.
    - by apply processInput_cursor_bound.
    - destruct (processInput_rest content (render_of s) now text s)
        as (_ & _ & _ & _ & _ & ->). exact Hq. }
  destruct ev as [ty data clip | text | k | | data | data | target | |]; cbn.
  - unfold handleBeforeInput.
    repeat (case_match; try done); auto.
  - unfold handleInput. case_match; [done | auto].
  - unfold handleKeyDown.
    repeat (case_match; try done); try case_bool_decide; split; cbn; try done; try lia.
  - done.
  - done.
  - unfold handleCompositionEnd. case_match; split; cbn; try done.
    apply Forall_app. split; [done |]. apply Forall_singleton. done.
  - destruct target as [index |]; [| done].
    split; [| done]. cbn in *.
    apply elem_of_seq in Hev. lia.
  - unfold handleTimeout.
    destruct (timeouts s) as [| [r data] q] eqn:Eq.
    { split; [done | by rewrite Eq]. }
    apply Forall_cons in Hq as [Hr Hq']. split.
    + by apply processInput_cursor_bound.
    + destruct (processInput_rest content r now data (setTimeouts q s))
        as (_ & _ & _ & _ & _ & ->). exact Hq'.
  - unfold handleTick.
    repeat (case_match; try done).
Qed.

Lemma run_positions_in_range evs : ∀ s,
  Forall (λ e : Z * event, valid_event content e.2) evs →
  positions_in_range content s →
  positions_in_range content (run content evs s).
Proof.
  induction evs as [| [now ev] evs IH]; intros s Hevs Hs; [done |].
  apply Forall_cons in Hevs as [Hev Hevs].
  cbn. apply IH; [done |]. by apply handle_positions_in_range.
Qed.

End Bounded.

(** C7. Starting from the initial state (cursor 0), after any sequence of
    events (typing, paste, composition, arrow keys, Home, End, Backspace,
    Delete, clicks on rendered characters, timer callbacks) the cursor is
    at most the length [L] of the reference text; being a natural number it
    is at least 0. *)
Theorem cursor_bounded (content : jsstring) (evs : list (Z * event)) :
  Forall (λ e : Z * event, valid_event content e.2) evs →
  0 ≤ currentPosition (run content evs initial)
  ∧ currentPosition (run content evs initial) ≤ length content.
Proof.
  intros Hevs. split; [lia |].
  apply (run_positions_in_range content evs initial Hevs (positions_in_range_initial content)).
Qed.

Lemma cursor_bounded_witness :
  let content := js "ab" in
  let evs := [ (1%Z, BeforeInput insertOther (Some (js "a")) None);
               (2%Z, KeyDown End_);
               (3%Z, KeyDown ArrowRight);
               (4%Z, BeforeInput insertOther (Some (js "z")) None);
               (5%Z, Click (Some 1));
               (6%Z, KeyDown Backspace);
               (7%Z, KeyDown ArrowLeft);
               (8%Z, KeyDown ArrowLeft);
               (9%Z, KeyDown Delete) ] in
  Forall (λ e : Z * event, valid_event content e.2) evs
  ∧ currentPosition (run content evs initial) ≤ 2.
Proof.
  intros content evs.
  assert (Hevs : Forall (λ e : Z * event, valid_event content e.2) evs).
  { repeat (apply Forall_cons; split; [try exact I |]); [| apply Forall_nil_2].
    unfold valid_event, renderedIndices, snd. apply elem_of_seq. cbn. lia. }
  split; [exact Hevs |].
  exact (proj2 (cursor_bounded content evs Hevs)).
Defined.

(** ** Arithmetic of the metrics *)

Lemma Qeq_bool_inject_pos (z : Z) : (0 < z)%Z → Qeq_bool (inject_Z z) 0 = false.
Proof.
  intros Hz. unfold Qeq_bool, inject_Z. cbn.
  apply Z.eqb_neq. lia.
Qed.

Lemma inject_pos_nonzero (z : Z) : (0 < z)%Z → ¬ (inject_Z z == 0)%Q.
Proof.
  intros Hz H. apply Qeq_bool_neq in H; [done |]. by apply Qeq_bool_inject_pos.
Qed.

(** [Math.round(n / n * 100)] is 100 for [n > 0]. *)
Lemma percent_full (n : nat) :
  0 < n →
  Math_round (js_mul (js_div (of_nat n) (of_nat n)) (of_nat 100)) = Num 100.
Proof.
  intros Hn. unfold of_nat, js_div.
  rewrite Qeq_bool_inject_pos by lia.
  cbn [js_mul Math_round]. f_equal.
  assert (Hq : (inject_Z (Z.of_nat n) / inject_Z (Z.of_nat n) * inject_Z (Z.of_nat 100)
                + (1 # 2) == 201 # 2)%Q).
  { change (inject_Z (Z.of_nat 100)) with (100 # 1)%Q.
    field. apply inject_pos_nonzero. lia. }
  by rewrite (Qfloor_comp _ _ Hq).
Qed.

(** [Math.round(0 / n * 100)] is 0 for [n > 0]. *)
Lemma percent_none (n : nat) :
  0 < n →
  Math_round (js_mul (js_div (of_nat 0) (of_nat n)) (of_nat 100)) = Num 0.
Proof.
  intros Hn. unfold of_nat, js_div.
  rewrite Qeq_bool_inject_pos by lia.
  cbn [js_mul Math_round]. f_equal.
  assert (Hq : (inject_Z (Z.of_nat 0) / inject_Z (Z.of_nat n) * inject_Z (Z.of_nat 100)
                + (1 # 2) == 1 # 2)%Q).
  { change (inject_Z (Z.of_nat 100)) with (100 # 1)%Q.
    change (inject_Z (Z.of_nat 0)) with (0 # 1)%Q.
    field. apply inject_pos_nonzero. lia. }
  by rewrite (Qfloor_comp _ _ Hq).
Qed.

(** [Math.round(0 / minutes)] is 0 whenever [minutes > 0]. *)
Lemma wpm_none (timeElapsed : Z) :
  let minutes := js_div (Num (inject_Z timeElapsed)) (Num 60000) in
  js_gt0 minutes = true →
  Math_round (js_div (of_nat 0) minutes) = Num 0.
Proof.
  intros minutes.
  change minutes with (Num (inject_Z timeElapsed / 60000)).
  unfold js_gt0, js_div, of_nat. intros Hgt.
  destruct (Qeq_bool (inject_Z timeElapsed / 60000) 0) eqn:Hz.
  { apply Qeq_bool_iff in Hz. apply negb_true_iff in Hgt.
    assert (Qle_bool (inject_Z timeElapsed / 60000) 0 = true); [| congruence].
    apply Qle_bool_iff. rewrite Hz. apply Qle_refl. }
  unfold Math_round. f_equal.
  assert (Hq : (inject_Z (Z.of_nat 0) / (inject_Z timeElapsed / 60000) + (1 # 2)
                == 1 # 2)%Q).
  { change (inject_Z (Z.of_nat 0)) with 0%Q.
    unfold Qdiv at 1. rewrite Qmult_0_l. apply Qplus_0_l. }
  by rewrite (Qfloor_comp _ _ Hq).
Qed.


(** ** Error count *)

Lemma filter_none {A} (f : A → bool) (l : list A) :
  (∀ x, x ∈ l → f x = false) → List.filter f l = [].
Proof.
  induction l as [| x l IH]; intros Hall; [done |].
  cbn. rewrite (Hall x) by apply list_elem_of_here.
  apply IH. intros y Hy. apply Hall. by apply list_elem_of_further.
Qed.

Lemma errorCount_all_match (content : jsstring) (m : gmap nat jsstring) :
  (∀ i ch, m !! i = Some ch → strict_eq_src (content !! i) ch = true) →
  errorCount content m = 0.
Proof.
  intros Hall. unfold errorCount. rewrite filter_none; [done |].
  intros [i ch] Hin. apply elem_of_map_to_list in Hin.
  cbn. by rewrite (Hall i ch Hin).
Qed.


(** ** Typing the reference text *)

Lemma size_map_seq {A} (xs : list A) : ∀ start,
  size (map_seq start xs : gmap nat A) = length xs.
Proof.
  induction xs as [| x xs IH]; intros start; [done |].
  rewrite map_seq_cons, map_size_insert_None by apply map_seq_cons_disjoint.
  cbn. by rewrite IH.
Qed.

Section Verbatim.

Variable content : jsstring.

Lemma commit_matching_unit (u : code_unit) rest pos next :
  content !! pos = Some u →
  u ≠ CR →
  commitLoop content ([u] :: rest) pos next
  = commitLoop content rest (pos + 1) (<[pos := [u]]> next).
Proof.
  intros Hsrc Hcr.
  destruct (is_blank [u]) eqn:Hb.
  - apply commitLoop_blank_match; [done |]. by apply strict_eq_src_unit.
  - apply commitLoop_non_blank; try done.
    + by eapply lookup_lt_Some.
    + intros [= ->]. done.
Qed.

Lemma commitEach_cons now ch chars s :
  commitEach content now (ch :: chars) s
  = commitEach content now chars (processInput content (render_of s) now ch s).
Proof. reflexivity. Qed.

Lemma commitEach_metrics now chars : ∀ s,
  wpm (commitEach content now chars s) = wpm s
  ∧ accuracy (commitEach content now chars s) = accuracy s
  ∧ errors (commitEach content now chars s) = errors s.
Proof.
  induction chars as [| ch chars IH]; intros s; [done |].
  rewrite commitEach_cons.
  destruct (IH (processInput content (render_of s) now ch s)) as (-> & -> & ->).
  destruct (processInput_rest content (render_of s) now ch s) as (-> & -> & -> & _).
  done.
Qed.

(** Typing the remaining suffix of the reference after its prefix. *)
Lemma commitEach_suffix now suf : ∀ pre s,
  content = pre ++ suf →
  CR ∉ suf →
  currentPosition s = length pre →
  typedMap s = map_seq 0 ((λ u, [u]) <$> pre) →
  currentPosition (commitEach content now ((λ u, [u]) <$> suf) s) = length content
  ∧ typedMap (commitEach content now ((λ u, [u]) <$> suf) s)
    = map_seq 0 ((λ u, [u]) <$> content).
Proof.
  induction suf as [| u suf IH]; intros pre s Hcontent Hcr Hpos Hmap.
  - rewrite app_nil_r in Hcontent. subst pre. done.
  - rewrite fmap_cons, commitEach_cons.
    apply not_elem_of_cons in Hcr as [Hu Hcr].
    assert (Hsrc : content !! length pre = Some u).
    { rewrite Hcontent. by rewrite list_lookup_middle. }
    apply (IH (pre ++ [u])).
    + by rewrite <- app_assoc.
    + done.
    + rewrite processInput_currentPosition by done.
      cbn [render_of r_currentPosition r_typedMap]. rewrite Hpos.
      rewrite codePoints_unit, commit_matching_unit by done.
      cbn. rewrite length_app. cbn. lia.
    + rewrite processInput_typedMap by done.
      cbn [render_of r_currentPosition r_typedMap]. rewrite Hpos, Hmap.
      rewrite codePoints_unit, commit_matching_unit by done.
      cbn. rewrite fmap_app. cbn. rewrite map_seq_snoc.
      by rewrite length_fmap.
Qed.

Lemma commitVerbatim_state now :
  CR ∉ content →
  currentPosition (commitVerbatim content now) = length content
  ∧ typedMap (commitVerbatim content now) = map_seq 0 ((λ u, [u]) <$> content).
Proof.
  intros Hcr. by apply (commitEach_suffix now content [] initial).
Qed.

Lemma errorCount_verbatim :
  errorCount content (map_seq 0 ((λ u, [u]) <$> content)) = 0.
Proof.
  apply errorCount_all_match. intros i ch.
  rewrite lookup_map_seq_0, list_lookup_fmap.
  destruct (content !! i) as [u |]; cbn; [| done].
  intros [= <-]. by apply bool_decide_eq_true_2.
Qed.

End Verbatim.

(** C8, refuted as stated: the reference text ["a\rb"] (units 97, 13, 98).
    Typing ["a"] fills position 0; the carriage return is skipped, so the
    cursor stays at 1; ["b"] then lands on position 1, where the reference
    has the carriage return.  One error, accuracy 50, progress 67. *)
Lemma verbatim_fails_on_CR :
  let content := [97; 13; 98]%N in
  let s := handleTick content 61000%Z (commitVerbatim content 1000%Z) in
  typedMap s = {[ 0 := [97%N]; 1 := [98%N] ]}
  ∧ currentPosition s = 2
  ∧ errors s = 1
  ∧ accuracy s = Num 50
  ∧ progress content s = Num 67
  ∧ ¬ verbatim_claim.
Proof.
  intros content s.
  assert (He : errors s = 1) by (vm_compute; reflexivity).
  split; [vm_compute; reflexivity |].
  split; [vm_compute; reflexivity |].
  split; [exact He |].
  split; [vm_compute; reflexivity |].
  split; [vm_compute; reflexivity |].
  intros Hall. destruct (Hall content 1000%Z 61000%Z) as [He' _].
  fold s in He'. congruence.
Qed.

(** C8, amended: for every non-empty reference text without a carriage
    return, typing it verbatim, one [content[i]] after the other, into a
    fresh session ends with the cursor at [L], no mismatching entry,
    accuracy 100 and progress 100, before and after any metrics tick. *)
Theorem verbatim_metrics (content : jsstring) (now : Z) :
  content ≠ [] →
  CR ∉ content →
  let s := commitVerbatim content now in
  currentPosition s = length content
  ∧ errorCount content (typedMap s) = 0
  ∧ errors s = 0 ∧ accuracy s = Num 100 ∧ progress content s = Num 100
  ∧ ∀ later,
      let s' := handleTick content later s in
      errors s' = 0 ∧ accuracy s' = Num 100 ∧ progress content s' = Num 100.
Proof.
  intros Hne Hcr s.
  destruct (commitVerbatim_state content now Hcr) as [Hpos Hmap].
  destruct (commitEach_metrics content now ((λ u, [u]) <$> content) initial)
    as (_ & Hacc & Herr).
  fold (commitVerbatim content now) in Hacc, Herr. fold s in Hpos, Hmap, Hacc, Herr.
  assert (Hlen : 0 < length content) by (destruct content; [done | cbn; lia]).
  assert (Hsize : size (typedMap s) = length content).
  { rewrite Hmap, size_map_seq. by rewrite length_fmap. }
  assert (Hec : errorCount content (typedMap s) = 0).
  { rewrite Hmap. apply errorCount_verbatim. }
  assert (Hprog : progress content s = Num 100).
  { unfold progress. rewrite Hsize. by apply percent_full. }
  split; [exact Hpos |]. split; [exact Hec |].
  split; [exact Herr |]. split; [exact Hacc |]. split; [exact Hprog |].
  intros later s'. subst s'. unfold handleTick.
  destruct (isStarted s && bool_decide (0 < startTime s)%Z); [| done].
  rewrite Hec, Hsize, Nat.sub_0_r.
  rewrite bool_decide_eq_true_2 by done.
  rewrite percent_full by done.
  split; [done |]. split; [done |].
  rewrite <- Hprog. unfold progress.
  by destruct (js_gt0 _).
Qed.

Lemma verbatim_metrics_witness :
  let content := js "hi there" in
  let s := handleTick content 9000%Z (commitVerbatim content 1000%Z) in
  content ≠ []
  ∧ (CR ∉ content)
  ∧ errors s = 0 ∧ accuracy s = Num 100 ∧ progress content s = Num 100.
Proof.
  intros content s.
  assert (Hne : content ≠ []) by discriminate.
  assert (Hcr : CR ∉ content).
  { intros Hin. apply list_elem_of_In in Hin. cbn in Hin.
    repeat (destruct Hin as [Hin | Hin]; [discriminate Hin |]). exact Hin. }
  split; [exact Hne |]. split; [exact Hcr |].
  destruct (verbatim_metrics content 1000%Z Hne Hcr) as (_ & _ & _ & _ & _ & Htick).
  exact (Htick 9000%Z).
Defined.

(** ** Metrics on empty inputs *)

Lemma minutes_gt0 (timeElapsed : Z) :
  js_gt0 (js_div (Num (inject_Z timeElapsed)) (Num 60000)) = true ↔ (0 < timeElapsed)%Z.
Proof.
  change (js_div (Num (inject_Z timeElapsed)) (Num 60000))
    with (Num (inject_Z timeElapsed / 60000)).
  unfold js_gt0. rewrite negb_true_iff, <- not_true_iff_false, Qle_bool_iff.
  unfold Qle, Qdiv, Qmult, Qinv, inject_Z. cbn. lia.
Qed.



Section EmptyReference.





End EmptyReference.




(** ** The scenarios of the specification, run on the model *)

(** Reference ["cat"], typed ["c"], ["o"], ["t"]: one error at position 1,
    accuracy 67. *)
Example error_visibility_cat :
  let content := js "cat" in
  let s := handleTick content 5000%Z (commitEach content 1000%Z [js "c"; js "o"; js "t"] initial) in
  typedMap s = {[ 0 := js "c"; 1 := js "o"; 2 := js "t" ]}
  ∧ errors s = 1 ∧ accuracy s = Num 67.
Proof. vm_compute. repeat split. Qed.

(** Reference ["hi there"]: ["h"], ["i"], [" "], then a wrong ["x"], then
    Backspace. *)
Example scenario_hi_there :
  let content := js "hi there" in
  let s3 := commitEach content 1000%Z [js "h"; js "i"; js " "] initial in
  let s4 := processInput content (render_of s3) 2000%Z (js "x") s3 in
  let s5 := handle content 3000%Z (KeyDown Backspace) s4 in
  (currentPosition s3 = 3 ∧ size (typedMap s3) = 3 ∧ errorCount content (typedMap s3) = 0)
  ∧ (typedMap s4 !! 3 = Some (js "x") ∧ currentPosition s4 = 4
     ∧ errors (handleTick content 2500%Z s4) = 1
     ∧ accuracy (handleTick content 2500%Z s4) = Num 75)
  ∧ (currentPosition s5 = 3 ∧ typedMap s5 !! 3 = None
     ∧ errors (handleTick content 3500%Z s5) = 0
     ∧ accuracy (handleTick content 3500%Z s5) = Num 100).
Proof. vm_compute. repeat split. Qed.

(** A character outside the basic plane is one element of the iterator but
    two positions of the reference: typed as one code point it is stored
    whole at one position and never equals the single unit found there. *)
Example astral_code_point_mismatch :
  let content := [55357; 56832]%N in
  let s := processInput content (render_of initial) 1000%Z content initial in
  typedMap s = {[ 0 := content ]} ∧ currentPosition s = 1
  ∧ errorCount content (typedMap s) = 1 ∧ progress content s = Num 50.
Proof. vm_compute. repeat split. Qed.

(** * Further properties of the component *)

(** ** Paste is typing, character by character *)

Lemma codePoints_elements (s : jsstring) :
  (∀ ch, ch ∈ codePoints s → codePoints ch = [ch] ∧ ch ≠ [])
  ∧ (∀ u ch, ch ∈ codePoints (u :: s) → codePoints ch = [ch] ∧ ch ≠ []).
Proof.
  induction s as [| v rest [IH1 IH2]].
  - split; [intros ch H; by apply elem_of_nil in H |].
    intros u ch H. cbn in H. apply list_elem_of_singleton in H as ->. done.
  - split; [exact (IH2 v) |].
    intros u ch H. cbn [codePoints] in H.
    destruct (is_lead_surrogate u && is_trail_surrogate v) eqn:Hpair.
    + apply elem_of_cons in H as [-> | H]; [| by apply IH1].
      cbn [codePoints]. by rewrite Hpair.
    + apply elem_of_cons in H as [-> | H]; [done | by apply (IH2 v)].
Qed.

Lemma codePoints_nonempty (s : jsstring) : s ≠ [] → codePoints s ≠ [].
Proof.
  destruct s as [| u [| v rest]]; [done | done |].
  intros _. cbn [codePoints]. by destruct (_ && _).
Qed.

Section PasteDecomposition.

Variable content : jsstring.

Lemma commitLoop_app l1 : ∀ l2 pos next,
  commitLoop content (l1 ++ l2) pos next
  = commitLoop content l2 (commitLoop content l1 pos next).1
                          (commitLoop content l1 pos next).2.
Proof.
  induction l1 as [| rawCh l1 IH]; intros l2 pos next; [done |].
  cbn [app commitLoop].
  case_bool_decide as Hend.
  { cbn. by rewrite commitLoop_at_end. }
  destruct (bool_decide ((if bool_decide (rawCh = [CR]) then [] else rawCh) = []));
    [apply IH |].
  destruct (is_blank _ && negb _); apply IH.
Qed.

Lemma commitEach_as_loop (now : Z) (chars : list jsstring) : ∀ s,
  (∀ ch, ch ∈ chars → codePoints ch = [ch] ∧ ch ≠ []) →
  chars ≠ [] →
  commitEach content now chars s
  = setCurrentPosition (commitLoop content chars (currentPosition s) (typedMap s)).1
      (setTypedMap (commitLoop content chars (currentPosition s) (typedMap s)).2
         (if isStarted s then s else setStartTime now (setIsStarted true s))).
Proof.
  induction chars as [| ch chars IH]; intros s Hall Hne; [done |].
  rewrite commitEach_cons.
  destruct (Hall ch (list_elem_of_here _ _)) as [Hcp Hch].
  assert (Hstep : processInput content (render_of s) now ch s
    = setCurrentPosition (commitLoop content [ch] (currentPosition s) (typedMap s)).1
        (setTypedMap (commitLoop content [ch] (currentPosition s) (typedMap s)).2
           (if isStarted s then s else setStartTime now (setIsStarted true s)))).
  { unfold processInput. rewrite bool_decide_eq_false_2 by done.
    rewrite Hcp. cbn [render_of r_currentPosition r_typedMap r_isStarted].
    by destruct (commitLoop content [ch] _ _). }
  change (ch :: chars) with ([ch] ++ chars). rewrite commitLoop_app.
  destruct (commitLoop content [ch] (currentPosition s) (typedMap s)) as [p1 n1].
  cbn [fst snd] in *. rewrite Hstep.
  destruct chars as [| ch' chars'].
  - done.
  - rewrite IH; [| intros c Hc; apply Hall; by apply list_elem_of_further | done].
    destruct s as [cp tm st]. by destruct st.
Qed.

End PasteDecomposition.

(** X1. [processInput(text)] is the same as typing the characters of [text]
    one at a time, each in its own call and render: the whole resulting
    state (map, cursor, started flag, start time) is equal. *)
Theorem paste_is_char_by_char (content : jsstring) (s : state) (now : Z) (text : jsstring) :
  processInput content (render_of s) now text s
  = commitEach content now (codePoints text) s.
Proof.
  destruct (decide (text = [])) as [-> | Hne]; [done |].
  rewrite commitEach_as_loop.
  - unfold processInput. rewrite bool_decide_eq_false_2 by done.
    cbn [render_of r_currentPosition r_typedMap r_isStarted].
    by destruct (commitLoop _ _ _ _).
  - apply codePoints_elements.
  - by apply codePoints_nonempty.
Qed.

(** ** Bounds on the rounded figures *)

Lemma ratio_bounds (n t : nat) :
  n ≤ t → 0 < t →
  (0 <= inject_Z (Z.of_nat n) / inject_Z (Z.of_nat t) <= 1)%Q.
Proof.
  intros Hle Ht.
  assert (Hpos : (0 < inject_Z (Z.of_nat t))%Q).
  { change 0%Q with (inject_Z 0). rewrite <- Zlt_Qlt. lia. }
  split.
  - apply Qle_shift_div_l; [done |]. rewrite Qmult_0_l.
    change 0%Q with (inject_Z 0). rewrite <- Zle_Qle. lia.
  - apply Qle_shift_div_r; [done |]. rewrite Qmult_1_l.
    rewrite <- Zle_Qle. lia.
Qed.

Lemma round_percent_bounds (x : Q) :
  (0 <= x <= 1)%Q →
  (0 ≤ Qfloor (x * inject_Z (Z.of_nat 100) + (1 # 2)) ≤ 100)%Z.
Proof.
  intros [H0 H1].
  change (inject_Z (Z.of_nat 100)) with 100%Q.
  split.
  - change 0%Z with (Qfloor 0). apply Qfloor_resp_le.
    apply (Qle_trans _ (0 * 100 + 0)); [done |].
    apply Qplus_le_compat; [| done].
    apply Qmult_le_compat_r; done.
  - change 100%Z with (Qfloor (1 * 100 + (1 # 2))). apply Qfloor_resp_le.
    apply Qplus_le_compat; [| apply Qle_refl].
    apply Qmult_le_compat_r; done.
Qed.

(** [Math.round(n / t * 100)] is an integer from 0 to 100 when [n <= t]. *)
Lemma percent_between (n t : nat) :
  n ≤ t → 0 < t →
  integer_between 0 100 (Math_round (js_mul (js_div (of_nat n) (of_nat t)) (of_nat 100))).
Proof.
  intros Hle Ht. unfold of_nat, js_div.
  rewrite Qeq_bool_inject_pos by lia.
  cbn [js_mul Math_round]. eexists. split; [reflexivity |].
  apply round_percent_bounds. by apply ratio_bounds.
Qed.

(** [Math.round(n / minutes)] is a non-negative integer when [minutes > 0]. *)
Lemma wpm_from_zero (n : nat) (timeElapsed : Z) :
  let minutes := js_div (Num (inject_Z timeElapsed)) (Num 60000) in
  js_gt0 minutes = true →
  integer_from 0 (Math_round (js_div (of_nat n) minutes)).
Proof.
  intros minutes Hgt. pose proof (proj1 (minutes_gt0 timeElapsed) Hgt) as Hd.
  change minutes with (Num (inject_Z timeElapsed / 60000)).
  assert (Hm : (0 < inject_Z timeElapsed / 60000)%Q).
  { apply Qlt_shift_div_l; [done |]. rewrite Qmult_0_l.
    change 0%Q with (inject_Z 0). rewrite <- Zlt_Qlt. lia. }
  unfold js_div, of_nat.
  destruct (Qeq_bool (inject_Z timeElapsed / 60000) 0) eqn:Hz.
  { apply Qeq_bool_iff in Hz. rewrite Hz in Hm. by apply Qlt_irrefl in Hm. }
  cbn [Math_round]. eexists. split; [reflexivity |].
  change 0%Z with (Qfloor 0). apply Qfloor_resp_le.
  apply (Qle_trans _ (0 + 0)); [done |].
  apply Qplus_le_compat; [| done].
  apply Qle_shift_div_l; [done |]. rewrite Qmult_0_l.
  change 0%Q with (inject_Z 0). rewrite <- Zle_Qle. lia.
Qed.

(** ** The map only holds positions of the text *)

Lemma size_keys_bound {A} (m : gmap nat A) (L : nat) :
  (∀ i, is_Some (m !! i) → i < L) → size m ≤ L.
Proof.
  intros Hkeys.
  rewrite <- (size_dom (D := gset nat) m).
  rewrite <- (size_set_seq (C := gset nat) 0 L).
  apply subseteq_size. intros i Hi.
  apply elem_of_dom in Hi. apply elem_of_set_seq. split; [lia |].
  cbn. by apply Hkeys.
Qed.

Lemma errorCount_le_size (content : jsstring) (m : gmap nat jsstring) :
  errorCount content m ≤ size m.
Proof.
  unfold errorCount. rewrite <- length_map_to_list. apply filter_length_le.
Qed.

Section KeysInRange.

Variable content : jsstring.

Lemma processInput_keys r now text s :
  r_currentPosition r ≤ length content →
  (∀ i, is_Some (r_typedMap r !! i) → i < length content) →
  (∀ i, is_Some (typedMap s !! i) → i < length content) →
  ∀ i, is_Some (typedMap (processInput content r now text s) !! i) → i < length content.
Proof.
  intros Hpos Hr Hs i. destruct (decide (text = [])) as [-> | Hne]; [apply Hs |].
  rewrite processInput_typedMap by done.
  destruct (commitLoop _ _ _ _) as [pos next] eqn:Hrun.
  apply commitLoop_spec in Hrun as (Hle & Hb & Hout & Hin). cbn.
  destruct (decide (i < r_currentPosition r ∨ pos ≤ i)) as [Ho | Hi].
  - rewrite Hout by done. apply Hr.
  - intros _. specialize (Hb Hpos). lia.
Qed.

Lemma handle_keys_in_range now ev s :
  valid_event content ev →
  keys_in_range content s →
  keys_in_range content (handle content now ev s).
Proof.
  intros Hev (Hpos & Hkeys & Hq).
  split; [by apply handle_positions_in_range |].
  assert (Hproc : ∀ text,
    (∀ i, is_Some (typedMap (processInput content (render_of s) now text s) !! i)
          → i < length content)
    ∧ Forall (λ t : render * jsstring,
                ∀ i, is_Some (r_typedMap t.1 !! i) → i < length content)
             (timeouts (processInput content (render_of s) now text s))).
  { intros text. split.
    - apply processInput_keys; [apply Hpos | done | done].
    - destruct (processInput_rest content (render_of s) now text s)
        as (_ & _ & _ & _ & _ & ->). exact Hq. }
  assert (Hdel : ∀ k i, is_Some (delete k (typedMap s) !! i) → i < length content).
  { intros k i Hi. apply Hkeys. apply lookup_delete_is_Some in Hi. tauto. }
  destruct ev as [ty data clip | text | k | | data | data | target | |]; cbn.
  - unfold handleBeforeInput.
    repeat (case_match; try done); auto.
  - unfold handleInput. case_match; [done | auto].
  - unfold handleKeyDown.
    repeat (case_match; try done); try case_bool_decide; split; cbn; try done;
      apply Hdel.
  - done.
  - done.
  - unfold handleCompositionEnd. case_match; split; cbn; try done.
    apply Forall_app. split; [done |]. apply Forall_singleton. done.
  - by destruct target.
  - unfold handleTimeout.
    destruct (timeouts s) as [| [r data] q] eqn:Eq; [by rewrite Eq |].
    destruct Hpos as [Hp Hpq]. rewrite Eq in Hpq.
    apply Forall_cons in Hq as [Hr Hq']. apply Forall_cons in Hpq as [Hrp _].
    split.
    + by apply processInput_keys.
    + destruct (processInput_rest content r now data (setTimeouts q s))
        as (_ & _ & _ & _ & _ & ->). exact Hq'.
  - unfold handleTick.
    repeat (case_match; try done).
Qed.

Lemma keys_in_range_initial : keys_in_range content initial.
Proof.
  split; [apply positions_in_range_initial |].
  split; [| apply Forall_nil_2].
  intros i [x Hx]. cbn in Hx. by rewrite lookup_empty in Hx.
Qed.

Lemma handle_metrics_sane now ev s :
  keys_in_range content s →
  metrics_sane content s →
  metrics_sane content (handle content now ev s).
Proof.
  intros (_ & Hkeys & _) (Hw & Ha & He).
  assert (Hproc : ∀ r t text s', metrics_sane content s' →
                   metrics_sane content (processInput content r t text s')).
  { intros r t text s' Hs'. unfold metrics_sane.
    destruct (processInput_rest content r t text s') as (-> & -> & -> & _). exact Hs'. }
  assert (Hs : metrics_sane content s) by done.
  destruct ev as [ty data clip | text | k | | data | data | target | |]; cbn.
  - unfold handleBeforeInput.
    repeat (case_match; try done); auto.
  - unfold handleInput. case_match; [done | auto].
  - unfold handleKeyDown.
    repeat (case_match; try done); try case_bool_decide; done.
  - done.
  - done.
  - unfold handleCompositionEnd. by case_match.
  - by destruct target.
  - unfold handleTimeout.
    destruct (timeouts s) as [| [r data] q] eqn:Eq; [done |].
    by apply Hproc.
  - unfold handleTick.
    destruct (isStarted s && bool_decide (0 < startTime s)%Z); [| done].
    pose proof (errorCount_le_size content (typedMap s)) as Hec.
    pose proof (size_keys_bound (typedMap s) (length content) Hkeys) as Hsz.
    assert (Hw' : integer_from 0 (wpm
      (if js_gt0 (js_div (Num (inject_Z (now - startTime s))) (Num 60000))
       then setWpm (Math_round (js_div (of_nat (size (typedMap s)))
                      (js_div (Num (inject_Z (now - startTime s))) (Num 60000)))) s
       else s))).
    { destruct (js_gt0 _) eqn:Hgt; [| done]. by apply wpm_from_zero. }
    case_bool_decide as Htyped.
    + split; [exact Hw' |]. split; [| cbn; lia].
      apply percent_between; lia.
    + split; [exact Hw' |]. split; [| cbn; lia].
      by destruct (js_gt0 _).
Qed.

Lemma run_keys_and_metrics evs : ∀ s,
  Forall (λ e : Z * event, valid_event content e.2) evs →
  keys_in_range content s → metrics_sane content s →
  keys_in_range content (run content evs s) ∧ metrics_sane content (run content evs s).
Proof.
  induction evs as [| [now ev] evs IH]; intros s Hevs Hk Hm; [done |].
  apply Forall_cons in Hevs as [Hev Hevs].
  cbn. apply IH; [done | by apply handle_keys_in_range | by apply handle_metrics_sane].
Qed.

Lemma metrics_sane_initial : metrics_sane content initial.
Proof.
  split; [by exists 0%Z |]. split; [by exists 100%Z | cbn; lia].
Qed.

End KeysInRange.

Lemma typed_keys_bound_aux (content : jsstring) (evs : list (Z * event)) :
  Forall (λ e : Z * event, valid_event content e.2) evs →
  (∀ i, is_Some (typedMap (run content evs initial) !! i) → i < length content)
  ∧ size (typedMap (run content evs initial)) ≤ length content.
Proof.
  intros Hevs.
  destruct (run_keys_and_metrics content evs initial Hevs
              (keys_in_range_initial content) (metrics_sane_initial content))
    as [(_ & Hkeys & _) _].
  split; [exact Hkeys | by apply size_keys_bound].
Qed.

(** X2. After any sequence of events from the initial state, every key of
    the typed map is a position of the reference text, so the map never has
    more entries than the text has characters. *)
Theorem typed_keys_within_text (content : jsstring) (evs : list (Z * event)) :
  Forall (λ e : Z * event, valid_event content e.2) evs →
  let s := run content evs initial in
  (∀ i, is_Some (typedMap s !! i) → i < length content)
  ∧ size (typedMap s) ≤ length content.
Proof.
  intros Hevs s. by apply typed_keys_bound_aux.
Qed.

Lemma typed_keys_within_text_witness :
  let content := js "ab" in
  let evs := [ (1%Z, Input (js "xyzzy"));
               (2%Z, KeyDown Home);
               (3%Z, CompositionEnd (js "q"));
               (4%Z, KeyDown Delete);
               (5%Z, Timeout) ] in
  Forall (λ e : Z * event, valid_event content e.2) evs
  ∧ size (typedMap (run content evs initial)) ≤ 2.
Proof.
  intros content evs.
  assert (Hevs : Forall (λ e : Z * event, valid_event content e.2) evs).
  { repeat (apply Forall_cons; split; [exact I |]). apply Forall_nil_2. }
  split; [exact Hevs |].
  exact (proj2 (typed_keys_within_text content evs Hevs)).
Defined.

(** ** Editing keys *)

Lemma state_eq (s1 s2 : state) :
  currentPosition s1 = currentPosition s2 → typedMap s1 = typedMap s2 →
  isStarted s1 = isStarted s2 → startTime s1 = startTime s2 →
  wpm s1 = wpm s2 → accuracy s1 = accuracy s2 → errors s1 = errors s2 →
  isComposing s1 = isComposing s2 → compositionBuffer s1 = compositionBuffer s2 →
  timeouts s1 = timeouts s2 →
  s1 = s2.
Proof. destruct s1, s2; cbn; intros; by subst. Qed.

Lemma setCurrentPosition_same (s : state) : setCurrentPosition (currentPosition s) s = s.
Proof. by destruct s. Qed.

(** X5. The Delete key, outside a composition: the cursor stays where it
    is; inside the text the entry under the cursor is removed and every
    other entry kept; at the end of the text nothing changes at all; and a
    second Delete changes nothing more. *)
Theorem delete_key_clears_under_cursor (content : jsstring) (s : state) (now : Z) :
  isComposing s = false →
  let s' := handle content now (KeyDown Delete) s in
  currentPosition s' = currentPosition s
  ∧ (currentPosition s < length content → typedMap s' !! currentPosition s = None)
  ∧ (∀ i, i ≠ currentPosition s → typedMap s' !! i = typedMap s !! i)
  ∧ (length content ≤ currentPosition s → s' = s)
  ∧ handle content now (KeyDown Delete) s' = s'.
Proof.
  intros Hc s'. subst s'. cbn. unfold handleKeyDown. rewrite Hc.
  case_bool_decide as Hin; cbn; rewrite ?Hc.
  - rewrite bool_decide_eq_true_2 by done.
    split; [done |]. split; [intros _; apply lookup_delete_eq |].
    split; [intros i Hi; by apply lookup_delete_ne |].
    split; [lia |]. cbn.
    apply state_eq; try done. cbn. apply delete_delete_eq.
  - rewrite bool_decide_eq_false_2 by done.
    repeat split; try done; lia.
Qed.

Lemma delete_key_clears_under_cursor_witness :
  let content := js "cat" in
  let s := handle content 2%Z (KeyDown Home)
             (handle content 1%Z (Input (js "cot")) initial) in
  isComposing s = false
  ∧ typedMap (handle content 3%Z (KeyDown Delete) s) !! 0 = None
  ∧ typedMap (handle content 3%Z (KeyDown Delete) s) !! 1 = Some (js "o").
Proof.
  intros content s.
  assert (Hc : isComposing s = false) by reflexivity.
  destruct (delete_key_clears_under_cursor content s 3%Z Hc) as (_ & H0 & H1 & _).
  split; [exact Hc |].
  split; [apply H0; vm_compute; lia |].
  rewrite (H1 1); [reflexivity | vm_compute; lia].
Defined.

Section Overwrite.

Variable content : jsstring.

(** Where the loop ends, and what it leaves on the stretch it crossed, do
    not depend on the map it started from. *)
Lemma commitLoop_two_maps chars : ∀ pos (m1 m2 : gmap nat jsstring),
  (commitLoop content chars pos m1).1 = (commitLoop content chars pos m2).1
  ∧ ∀ i, pos ≤ i < (commitLoop content chars pos m1).1 →
         (commitLoop content chars pos m1).2 !! i = (commitLoop content chars pos m2).2 !! i.
Proof.
  induction chars as [| rawCh rest IH]; intros pos m1 m2.
  - split; [done | cbn; intros; lia].
  - cbn [commitLoop].
    case_bool_decide as Hend; [split; [done | cbn; intros; lia] |].
    destruct (bool_decide ((if bool_decide (rawCh = [CR]) then [] else rawCh) = []));
      [apply IH |].
    destruct (is_blank _ && negb _); [apply IH |].
    set (ch := if bool_decide (rawCh = [CR]) then [] else rawCh).
    destruct (IH (pos + 1) (<[pos := ch]> m1) (<[pos := ch]> m2)) as [Hpos Hin].
    split; [exact Hpos |].
    intros i Hi. destruct (decide (i = pos)) as [-> | Hne]; [| apply Hin; lia].
    destruct (commitLoop content rest (pos + 1) (<[pos := ch]> m1)) as [p1 n1] eqn:E1.
    destruct (commitLoop content rest (pos + 1) (<[pos := ch]> m2)) as [p2 n2] eqn:E2.
    apply commitLoop_spec in E1 as (_ & _ & Ho1 & _).
    apply commitLoop_spec in E2 as (_ & _ & Ho2 & _).
    cbn. rewrite Ho1, Ho2 by lia. by rewrite !lookup_insert_eq.
Qed.

End Overwrite.

(** X6. Typing overwrites.  Whenever an input advances the cursor, it makes
    no difference whether Delete was pressed just before it: the two
    resulting states are equal. *)
Theorem typing_overwrites (content : jsstring) (s : state) (t1 t2 : Z) (text : jsstring) :
  isComposing s = false →
  currentPosition s < currentPosition (processInput content (render_of s) t2 text s) →
  let s' := handle content t1 (KeyDown Delete) s in
  processInput content (render_of s') t2 text s'
  = processInput content (render_of s) t2 text s.
Proof.
  intros Hc Hadv s'.
  assert (Hne : text ≠ []).
  { intros ->. rewrite processInput_empty in Hadv. lia. }
  rewrite processInput_currentPosition in Hadv by done.
  cbn [render_of r_currentPosition r_typedMap] in Hadv.
  subst s'. cbn. unfold handleKeyDown. rewrite Hc.
  case_bool_decide as Hin; [| done].
  set (p := currentPosition s) in *. set (m := typedMap s) in *.
  destruct (commitLoop_two_maps content (codePoints text) p (delete p m) m) as [Hpos Hmid].
  pose proof (processInput_rest content
    (render_of (setTypedMap (delete p m) s)) t2 text (setTypedMap (delete p m) s))
    as (E1 & E2 & E3 & E4 & E5 & E6).
  pose proof (processInput_rest content (render_of s) t2 text s)
    as (F1 & F2 & F3 & F4 & F5 & F6).
  apply state_eq.
  - rewrite !processInput_currentPosition by done. exact Hpos.
  - rewrite !processInput_typedMap by done.
    cbn [render_of r_currentPosition r_typedMap currentPosition typedMap setTypedMap].
    fold p m. apply map_eq. intros i.
    destruct (commitLoop content (codePoints text) p (delete p m)) as [p1 n1] eqn:L1.
    destruct (commitLoop content (codePoints text) p m) as [p2 n2] eqn:L2.
    cbn [fst snd] in *. subst p2.
    destruct (decide (p ≤ i < p1)) as [Hi | Hi]; [by apply Hmid |].
    apply commitLoop_spec in L1 as (_ & _ & Ho1 & _).
    apply commitLoop_spec in L2 as (_ & _ & Ho2 & _).
    rewrite Ho1, Ho2 by lia. apply lookup_delete_ne. lia.
  - by rewrite !processInput_isStarted.
  - by rewrite !processInput_startTime.
  - by rewrite E1, F1.
  - by rewrite E2, F2.
  - by rewrite E3, F3.
  - by rewrite E4, F4.
  - by rewrite E5, F5.
  - by rewrite E6, F6.
Qed.

Lemma typing_overwrites_witness :
  let content := js "cat" in
  let s := handle content 2%Z (KeyDown Home)
             (handle content 1%Z (Input (js "cot")) initial) in
  let s' := handle content 3%Z (KeyDown Delete) s in
  isComposing s = false
  ∧ currentPosition s < currentPosition (processInput content (render_of s) 4%Z (js "k") s)
  ∧ processInput content (render_of s') 4%Z (js "k") s'
    = processInput content (render_of s) 4%Z (js "k") s.
Proof.
  intros content s s'.
  assert (Hc : isComposing s = false) by reflexivity.
  assert (Hadv : currentPosition s
                 < currentPosition (processInput content (render_of s) 4%Z (js "k") s))
    by (vm_compute; lia).
  split; [exact Hc |]. split; [exact Hadv |].
  exact (typing_overwrites content s 3%Z 4%Z (js "k") Hc Hadv).
Defined.

(** ** Navigation *)

(** X7. Outside a composition the two arrow keys undo each other: Right
    then Left gives the state back whenever the cursor is before the end,
    Left then Right whenever it is after the start and within the text.  At
    the start Left does nothing, at or past the end Right does nothing. *)
Theorem arrow_keys_are_inverse (content : jsstring) (s : state) (t1 t2 : Z) :
  isComposing s = false →
  (currentPosition s < length content →
     handle content t2 (KeyDown ArrowLeft) (handle content t1 (KeyDown ArrowRight) s) = s)
  ∧ (0 < currentPosition s ≤ length content →
     handle content t2 (KeyDown ArrowRight) (handle content t1 (KeyDown ArrowLeft) s) = s)
  ∧ (currentPosition s = 0 → handle content t1 (KeyDown ArrowLeft) s = s)
  ∧ (length content ≤ currentPosition s → handle content t1 (KeyDown ArrowRight) s = s).
Proof.
  intros Hc. cbn. unfold handleKeyDown. rewrite Hc.
  split; [| split; [| split]].
  - intros Hlt. rewrite bool_decide_eq_true_2 by done. cbn. rewrite Hc.
    rewrite bool_decide_eq_true_2 by lia. cbn.
    replace (currentPosition s + 1 - 1) with (currentPosition s) by lia.
    by destruct s.
  - intros Hgt. rewrite bool_decide_eq_true_2 by lia. cbn. rewrite Hc.
    rewrite bool_decide_eq_true_2 by lia. cbn.
    replace (currentPosition s - 1 + 1) with (currentPosition s) by lia.
    by destruct s.
  - intros ->. done.
  - intros Hge. by rewrite bool_decide_eq_false_2 by lia.
Qed.

Lemma arrow_keys_are_inverse_witness :
  let content := js "ab" in
  let s := handle content 1%Z (Input (js "a")) initial in
  isComposing s = false
  ∧ currentPosition s < length content
  ∧ handle content 3%Z (KeyDown ArrowLeft) (handle content 2%Z (KeyDown ArrowRight) s) = s.
Proof.
  intros content s.
  assert (Hc : isComposing s = false) by reflexivity.
  assert (Hlt : currentPosition s < length content) by (vm_compute; lia).
  split; [exact Hc |]. split; [exact Hlt |].
  exact (proj1 (arrow_keys_are_inverse content s 2%Z 3%Z Hc) Hlt).
Defined.

Lemma handle_navigation (content : jsstring) (now : Z) (ev : event) (s : state) :
  is_navigation ev = true →
  handle content now ev s = setCurrentPosition (currentPosition (handle content now ev s)) s.
Proof.
  destruct ev as [| | k | | | | target | |]; try done; intros Hnav; cbn.
  - unfold handleKeyDown.
    destruct (isComposing s); [by rewrite setCurrentPosition_same |].
    destruct k; try done; try case_bool_decide; cbn;
      by rewrite ?setCurrentPosition_same.
  - destruct target; cbn; by rewrite ?setCurrentPosition_same.
Qed.

(** X8. Arrow keys, Home, End and clicks move the cursor and nothing else:
    after any sequence of them the map, the session clock, the sampled
    metrics, the composition state and the pending callbacks are those of
    the starting state. *)
Theorem navigation_only_moves_cursor (content : jsstring) (evs : list (Z * event)) :
  Forall (λ e : Z * event, is_navigation e.2 = true) evs →
  ∀ s, run content evs s = setCurrentPosition (currentPosition (run content evs s)) s.
Proof.
  induction evs as [| [now ev] evs IH]; intros Hnav s.
  - cbn. by rewrite setCurrentPosition_same.
  - apply Forall_cons in Hnav as [Hev Hnav]. cbn [run foldl fst snd].
    fold (run content evs (handle content now ev s)).
    rewrite (IH Hnav). cbn in Hev. rewrite (handle_navigation content now ev s Hev).
    by destruct s.
Qed.

Lemma navigation_only_moves_cursor_witness :
  let content := js "cat" in
  let s := handle content 1%Z (Input (js "co")) initial in
  let evs := [ (2%Z, KeyDown Home); (3%Z, KeyDown ArrowRight);
               (4%Z, Click (Some 2)); (5%Z, KeyDown End_) ] in
  Forall (λ e : Z * event, is_navigation e.2 = true) evs
  ∧ typedMap (run content evs s) = typedMap s
  ∧ currentPosition (run content evs s) = 3.
Proof.
  intros content s evs.
  assert (Hnav : Forall (λ e : Z * event, is_navigation e.2 = true) evs).
  { repeat (apply Forall_cons; split; [reflexivity |]). apply Forall_nil_2. }
  split; [exact Hnav |].
  split; [| reflexivity].
  exact (f_equal typedMap (navigation_only_moves_cursor content evs Hnav s)).
Defined.

(** ** [beforeinput] *)

(** X9. The Enter key ([insertParagraph]) outside a composition: when the
    reference has a newline under the cursor, a newline is recorded there,
    the cursor advances and the session is started; otherwise the whole
    state is left as it is, whatever [data] the event carries. *)
Theorem enter_needs_newline_in_reference (content : jsstring) (s : state) (now : Z)
    (data clipboard : option jsstring) :
  isComposing s = false →
  let s' := handle content now (BeforeInput insertParagraph data clipboard) s in
  (content !! currentPosition s = Some LF →
     typedMap s' = <[currentPosition s := [LF]]> (typedMap s)
     ∧ currentPosition s' = currentPosition s + 1
     ∧ isStarted s' = true)
  ∧ (content !! currentPosition s ≠ Some LF → s' = s).
Proof.
  intros Hc s'. subst s'. cbn. unfold handleBeforeInput. rewrite Hc.
  split; intros Hsrc.
  - rewrite (proj2 (strict_eq_src_unit _ LF) Hsrc).
    rewrite processInput_typedMap, processInput_currentPosition,
      processInput_isStarted by done.
    cbn [render_of r_currentPosition r_typedMap r_isStarted].
    change (codePoints [LF]) with [[LF]].
    rewrite commitLoop_blank_match; [| done | by apply strict_eq_src_unit].
    split; [done |]. split; [done |]. apply orb_negb_r.
  - assert (Hmis : strict_eq_src (content !! currentPosition s) [LF] = false).
    { apply not_true_is_false. by rewrite strict_eq_src_unit. }
    by rewrite Hmis.
Qed.

Lemma enter_needs_newline_in_reference_witness :
  let content := js "ab" in
  isComposing initial = false
  ∧ content !! currentPosition initial ≠ Some LF
  ∧ handle content 1%Z (BeforeInput insertParagraph None None) initial = initial.
Proof.
  intros content.
  assert (Hc : isComposing initial = false) by reflexivity.
  assert (Hsrc : content !! currentPosition initial ≠ Some LF) by discriminate.
  split; [exact Hc |]. split; [exact Hsrc |].
  exact (proj2 (enter_needs_newline_in_reference content initial 1%Z None None Hc) Hsrc).
Defined.

(** X10. Typed input and pasted input agree on the text: a [beforeinput]
    event carrying [data] (any insert type other than paste and paragraph)
    leaves the same map and the same cursor as pasting [data] would.  The
    filter in front of [processInput] only matters for the session clock. *)
Theorem direct_input_agrees_with_paste (content : jsstring) (s : state) (now : Z)
    (data : jsstring) :
  isComposing s = false →
  let typed := handle content now (BeforeInput insertOther (Some data) None) s in
  let pasted := handle content now (BeforeInput insertFromPaste None (Some data)) s in
  typedMap typed = typedMap pasted
  ∧ currentPosition typed = currentPosition pasted.
Proof.
  intros Hc typed pasted. subst typed pasted. cbn. unfold handleBeforeInput. rewrite Hc.
  destruct (decide (data = [])) as [-> | Hempty]; [done |].
  rewrite (bool_decide_eq_false_2 (data = [])) by done.
  destruct (decide (data = [CR])) as [-> | Hcr].
  { rewrite (bool_decide_eq_true_2 ([CR] = [CR])) by done.
    rewrite (bool_decide_eq_true_2 ([] = [])) by done.
    rewrite processInput_typedMap, processInput_currentPosition by done.
    cbn [render_of r_currentPosition r_typedMap].
    change (codePoints [CR]) with [[CR]]. by rewrite commitLoop_CR. }
  rewrite (bool_decide_eq_false_2 (data = [CR])) by done.
  rewrite (bool_decide_eq_false_2 (data = [])) by done.
  destruct (is_blank data && negb (strict_eq_src (content !! currentPosition s) data))
    eqn:Hfilter; [| done].
  apply andb_true_iff in Hfilter as [Hb Hmis]. apply negb_true_iff in Hmis.
  rewrite processInput_typedMap, processInput_currentPosition by done.
  cbn [render_of r_currentPosition r_typedMap].
  assert (Hcp : codePoints data = [data]).
  { unfold is_blank in Hb. rewrite !orb_true_iff, !bool_decide_eq_true in Hb.
    by destruct Hb as [[-> | ->] | ->]. }
  rewrite Hcp. by rewrite commitLoop_blank_mismatch.
Qed.

Lemma direct_input_agrees_with_paste_witness :
  let content := js "a b" in
  let typed := handle content 1%Z (BeforeInput insertOther (Some (js " ")) None) initial in
  let pasted := handle content 1%Z (BeforeInput insertFromPaste None (Some (js " "))) initial in
  isComposing initial = false
  ∧ typedMap typed = typedMap pasted
  ∧ isStarted typed = false ∧ isStarted pasted = true.
Proof.
  intros content typed pasted.
  assert (Hc : isComposing initial = false) by reflexivity.
  split; [exact Hc |].
  split; [exact (proj1 (direct_input_agrees_with_paste content initial 1%Z (js " ") Hc)) |].
  split; reflexivity.
Defined.

(** ** Composition end and its deferred callback *)

Lemma trimStart_empty_iff (data : jsstring) :
  trimStart data = [] ↔ Forall (λ u, is_js_whitespace u = true) data.
Proof.
  split; [| apply trimStart_blank].
  induction data as [| u rest IH]; [intros _; apply Forall_nil_2 |].
  cbn. destruct (is_js_whitespace u) eqn:Hu; [| done].
  intros H. apply Forall_cons. split; [done | by apply IH].
Qed.

Lemma trimStart_fixpoint (data : jsstring) :
  Forall (λ u, is_js_whitespace u = true) (trimStart data) → trimStart data = [].
Proof.
  induction data as [| u rest IH]; [done |].
  cbn. destruct (is_js_whitespace u) eqn:Hu; [exact IH |].
  intros H. apply Forall_cons in H as [H _]. congruence.
Qed.

Lemma trim_empty_iff (data : jsstring) :
  trim data = [] ↔ Forall (λ u, is_js_whitespace u = true) data.
Proof.
  split; [| apply trim_blank].
  unfold trim. intros H.
  apply (f_equal (@rev code_unit)) in H. rewrite rev_involutive in H. cbn in H.
  apply trimStart_empty_iff in H.
  apply Forall_rev in H. rewrite rev_involutive in H.
  apply trimStart_empty_iff. by apply trimStart_fixpoint.
Qed.

Lemma composition_end_queue_aux (content : jsstring) (s : state) (now : Z)
    (data : jsstring) :
  Exists (λ u, is_js_whitespace u = false) data →
  handle content now (CompositionEnd data) s
  = setComposing false [] (setTimeouts (timeouts s ++ [(render_of s, data)]) s).
Proof.
  intros Hex. cbn. unfold handleCompositionEnd.
  assert (Hne : data ≠ []).
  { intros ->. by apply Exists_nil in Hex. }
  assert (Htrim : trim data ≠ []).
  { rewrite trim_empty_iff. intros Hall.
    apply Exists_exists in Hex as (u & Hu & Hws).
    rewrite Forall_forall in Hall. specialize (Hall u Hu). congruence. }
  rewrite (bool_decide_eq_false_2 (data = [])) by done.
  rewrite (bool_decide_eq_false_2 (trim data = [])) by done.
  done.
Qed.

(** X11. A composition result with at least one character that is not
    white space is always forwarded: composition end queues exactly one
    callback, holding the data and the render current at that moment, and
    clears the composition flag and buffer; nothing else changes. *)
Theorem composition_result_is_queued (content : jsstring) (s : state) (now : Z)
    (data : jsstring) :
  Exists (λ u, is_js_whitespace u = false) data →
  handle content now (CompositionEnd data) s
  = setComposing false [] (setTimeouts (timeouts s ++ [(render_of s, data)]) s).
Proof.
  apply composition_end_queue_aux.
Qed.

Lemma composition_result_is_queued_witness :
  let content := js "ab" in
  let s := handle content 1%Z CompositionStart initial in
  Exists (λ u, is_js_whitespace u = false) (js " a ")
  ∧ timeouts (handle content 2%Z (CompositionEnd (js " a ")) s) = [(render_of s, js " a ")].
Proof.
  intros content s.
  assert (Hex : Exists (λ u, is_js_whitespace u = false) (js " a ")).
  { apply Exists_cons_tl. apply Exists_cons_hd. reflexivity. }
  split; [exact Hex |].
  exact (f_equal timeouts (composition_result_is_queued content s 2%Z (js " a ") Hex)).
Defined.

Lemma handle_keeps_timeouts (content : jsstring) (now : Z) (ev : event) (s : state) :
  keeps_timeouts ev = true →
  timeouts (handle content now ev s) = timeouts s.
Proof.
  assert (Hproc : ∀ text, timeouts (processInput content (render_of s) now text s)
                          = timeouts s).
  { intros text. by destruct (processInput_rest content (render_of s) now text s)
      as (_ & _ & _ & _ & _ & ->). }
  destruct ev as [ty data clip | text | k | | data | data | target | |]; try done;
    intros _; cbn.
  - unfold handleBeforeInput. repeat (case_match; try done); auto.
  - unfold handleInput. case_match; [done | auto].
  - unfold handleKeyDown. repeat (case_match; try done).
  - by destruct target.
  - unfold handleTick. repeat (case_match; try done).
Qed.

(** X12. The deferred callback works on the render it captured.  Let a
    composition end with forwardable data while no callback is pending, and
    let one more event (a key, a click, typed or pasted input, a tick)
    arrive before the callback runs: the map and the cursor after the
    callback are the same as if that event had never happened. *)
Theorem deferred_commit_ignores_intervening_event (content : jsstring) (s : state)
    (t1 t2 t3 : Z) (data : jsstring) (ev : event) :
  timeouts s = [] →
  Exists (λ u, is_js_whitespace u = false) data →
  keeps_timeouts ev = true →
  let with_event := run content [(t1, CompositionEnd data); (t2, ev); (t3, Timeout)] s in
  let without := run content [(t1, CompositionEnd data); (t3, Timeout)] s in
  typedMap with_event = typedMap without
  ∧ currentPosition with_event = currentPosition without.
Proof.
  intros Hq Hex Hev with_event without. subst with_event without.
  assert (Hne : data ≠ []).
  { intros ->. by apply Exists_nil in Hex. }
  cbn [run foldl fst snd].
  set (s1 := handle content t1 (CompositionEnd data) s).
  assert (Hq1 : timeouts s1 = [(render_of s, data)]).
  { subst s1. rewrite composition_end_queue_aux by done. cbn. by rewrite Hq. }
  assert (Hq2 : timeouts (handle content t2 ev s1) = [(render_of s, data)]).
  { by rewrite handle_keeps_timeouts. }
  cbn [handle]. unfold handleTimeout. rewrite Hq1, Hq2.
  by rewrite !processInput_typedMap, !processInput_currentPosition.
Qed.

Lemma deferred_commit_ignores_intervening_event_witness :
  let content := js "abc" in
  let s := handle content 1%Z (Input (js "ab")) initial in
  let with_event := run content [(2%Z, CompositionEnd (js "c"));
                                 (3%Z, KeyDown Backspace);
                                 (4%Z, Timeout)] s in
  timeouts s = []
  ∧ Exists (λ u, is_js_whitespace u = false) (js "c")
  ∧ typedMap with_event = {[ 0 := js "a"; 1 := js "b"; 2 := js "c" ]}
  ∧ currentPosition with_event = 3.
Proof.
  intros content s with_event.
  assert (Hq : timeouts s = []) by reflexivity.
  assert (Hex : Exists (λ u, is_js_whitespace u = false) (js "c")).
  { apply Exists_cons_hd. reflexivity. }
  split; [exact Hq |]. split; [exact Hex |].
  destruct (deferred_commit_ignores_intervening_event content s 2%Z 3%Z 4%Z (js "c")
              (KeyDown Backspace) Hq Hex eq_refl) as [Hm Hp].
  split.
  - exact (eq_trans Hm eq_refl).
  - exact (eq_trans Hp eq_refl).
Defined.

(** ** Session start *)

Section Started.

Variable content : jsstring.

Lemma processInput_started r now text s :
  text ≠ [] →
  (r_isStarted r = true → isStarted s = true) →
  isStarted (processInput content r now text s) = true.
Proof.
  intros Hne Hr. rewrite processInput_isStarted by done.
  destruct (r_isStarted r); [| apply orb_true_r].
  rewrite Hr by done. done.
Qed.

Lemma processInput_stays_started r now text s :
  isStarted s = true → isStarted (processInput content r now text s) = true.
Proof.
  intros Hs. destruct (decide (text = [])) as [-> | Hne]; [done |].
  rewrite processInput_isStarted by done. by rewrite Hs.
Qed.

Lemma handle_stays_started now ev s :
  isStarted s = true → isStarted (handle content now ev s) = true.
Proof.
  intros Hs.
  destruct ev as [ty data clip | text | k | | data | data | target | |]; cbn.
  - unfold handleBeforeInput.
    repeat (case_match; try done); by apply processInput_stays_started.
  - unfold handleInput. case_match; [done | by apply processInput_stays_started].
  - unfold handleKeyDown. repeat (case_match; try done).
  - done.
  - done.
  - unfold handleCompositionEnd. by case_match.
  - by destruct target.
  - unfold handleTimeout. destruct (timeouts s) as [| [r data] q]; [done |].
    by apply processInput_stays_started.
  - unfold handleTick. repeat (case_match; try done).
Qed.

Lemma processInput_typed_implies_started r now text s :
  (r_typedMap r ≠ ∅ → r_isStarted r = true) →
  (r_isStarted r = true → isStarted s = true) →
  (typedMap s ≠ ∅ → isStarted s = true) →
  typedMap (processInput content r now text s) ≠ ∅ →
  isStarted (processInput content r now text s) = true.
Proof.
  intros Hr1 Hr2 Hs. destruct (decide (text = [])) as [-> | Hne]; [done |].
  intros _. by apply processInput_started.
Qed.

Lemma handle_typed_implies_started now ev s :
  typed_implies_started s →
  typed_implies_started (handle content now ev s).
Proof.
  intros [Hs Hq].
  assert (Hmono : Forall (λ t : render * jsstring,
              (r_typedMap t.1 ≠ ∅ → r_isStarted t.1 = true)
              ∧ (r_isStarted t.1 = true → isStarted (handle content now ev s) = true))
            (timeouts s)).
  { eapply Forall_impl; [exact Hq |]. intros t [H1 H2]. split; [done |].
    intros Ht. apply handle_stays_started. by apply H2. }
  assert (Hsync : ∀ text,
    typedMap (processInput content (render_of s) now text s) ≠ ∅ →
    isStarted (processInput content (render_of s) now text s) = true).
  { intros text. by apply processInput_typed_implies_started. }
  assert (Hdel : ∀ k, delete k (typedMap s) ≠ ∅ → isStarted s = true).
  { intros k Hk. apply Hs. intros Hm. rewrite Hm, delete_empty in Hk. done. }
  assert (Hqsync : ∀ text, timeouts (processInput content (render_of s) now text s)
                           = timeouts s).
  { intros text. by destruct (processInput_rest content (render_of s) now text s)
      as (_ & _ & _ & _ & _ & ->). }
  destruct ev as [ty data clip | text | k | | data | data | target | |].
  - split; [| by rewrite (handle_keeps_timeouts content now _ s)].
    cbn. unfold handleBeforeInput. repeat (case_match; try done); auto.
  - split; [| by rewrite (handle_keeps_timeouts content now _ s)].
    cbn. unfold handleInput. case_match; [done | auto].
  - split; [| by rewrite (handle_keeps_timeouts content now _ s)].
    cbn. unfold handleKeyDown. repeat (case_match; try done); cbn; eauto.
  - split; [| by rewrite (handle_keeps_timeouts content now _ s)]. done.
  - split; [| by rewrite (handle_keeps_timeouts content now _ s)]. done.
  - split.
    + cbn. unfold handleCompositionEnd. by case_match.
    + assert (Hst : isStarted (handle content now (CompositionEnd data) s) = isStarted s).
      { cbn. unfold handleCompositionEnd. by case_match. }
      cbn in *. unfold handleCompositionEnd in *. case_match; cbn; [| done].
      apply Forall_app. split; [done |]. apply Forall_singleton. cbn. done.
  - split; [| by rewrite (handle_keeps_timeouts content now _ s)].
    by destruct target.
  - cbn in *. unfold handleTimeout in *.
    destruct (timeouts s) as [| [r data] q] eqn:Eq.
    { split; [done |]. rewrite Eq. apply Forall_nil_2. }
    apply Forall_cons in Hq as [[Hr1 Hr2] Hq'].
    apply Forall_cons in Hmono as [_ Hmono'].
    split.
    + by apply processInput_typed_implies_started.
    + destruct (processInput_rest content r now data (setTimeouts q s))
        as (_ & _ & _ & _ & _ & ->). exact Hmono'.
  - split; [| by rewrite (handle_keeps_timeouts content now _ s)].
    cbn. unfold handleTick. repeat (case_match; try done).
Qed.

Lemma run_typed_implies_started evs : ∀ s,
  typed_implies_started s → typed_implies_started (run content evs s).
Proof.
  induction evs as [| [now ev] evs IH]; intros s Hs; [done |].
  cbn. apply IH. by apply handle_typed_implies_started.
Qed.

Lemma run_stays_started evs : ∀ s,
  isStarted s = true → isStarted (run content evs s) = true.
Proof.
  induction evs as [| [now ev] evs IH]; intros s Hs; [done |].
  cbn. apply IH. by apply handle_stays_started.
Qed.

End Started.

(** X13. Whatever the events, a session that has something in its typed map
    is started, and a started session is never reset to unstarted. *)
Theorem typed_session_is_started (content : jsstring) (evs : list (Z * event)) :
  (typedMap (run content evs initial) ≠ ∅ → isStarted (run content evs initial) = true)
  ∧ (∀ s, isStarted s = true → isStarted (run content evs s) = true).
Proof.
  split.
  - apply (run_typed_implies_started content evs initial).
    split; [done | apply Forall_nil_2].
  - intros s. apply run_stays_started.
Qed.

Lemma typed_session_is_started_witness :
  let content := js "ab" in
  let evs := [ (5%Z, CompositionEnd (js "a")); (6%Z, Timeout); (7%Z, KeyDown Backspace) ] in
  let s := handle content 1%Z (Input (js "q")) initial in
  isStarted s = true
  ∧ isStarted (run content evs s) = true.
Proof.
  intros content evs s.
  assert (Hs : isStarted s = true) by reflexivity.
  split; [exact Hs |].
  exact (proj2 (typed_session_is_started content evs) s Hs).
Defined.

(** ** Error count *)

Lemma filter_length_perm {A} (f : A → bool) (l1 l2 : list A) :
  l1 ≡ₚ l2 → length (List.filter f l1) = length (List.filter f l2).
Proof.
  induction 1 as [| x l1 l2 _ IH | x y l | l1 l2 l3 _ IH1 _ IH2]; cbn.
  - done.
  - destruct (f x); cbn; by rewrite IH.
  - by destruct (f x), (f y).
  - by rewrite IH1.
Qed.

Lemma errorCount_insert (content : jsstring) (m : gmap nat jsstring) (i : nat)
    (ch : jsstring) :
  m !! i = None →
  errorCount content (<[i := ch]> m)
  = errorCount content m + (if strict_eq_src (content !! i) ch then 0 else 1).
Proof.
  intros Hfresh. unfold errorCount.
  rewrite (filter_length_perm _ _ _ (map_to_list_insert m i ch Hfresh)).
  cbn. destruct (strict_eq_src (content !! i) ch); cbn; lia.
Qed.

(** X14. The error count follows the edits.  Typing a committable character
    at a position that has no entry raises the number of mismatching
    entries by one if the character differs from the reference there and
    leaves it unchanged if it matches; Backspace right after brings the
    count back. *)
Theorem error_count_follows_commit (content : jsstring) (s : state) (t1 t2 : Z)
    (ch : jsstring) :
  isComposing s = false →
  currentPosition s < length content →
  typedMap s !! currentPosition s = None →
  codePoints ch = [ch] → is_blank ch = false → ch ≠ [CR] →
  let s1 := processInput content (render_of s) t1 ch s in
  let s2 := handle content t2 (KeyDown Backspace) s1 in
  errorCount content (typedMap s1)
  = errorCount content (typedMap s)
    + (if strict_eq_src (content !! currentPosition s) ch then 0 else 1)
  ∧ errorCount content (typedMap s2) = errorCount content (typedMap s).
Proof.
  intros Hc Hlt Hfresh Hcp Hb Hcr s1 s2.
  assert (Hne : ch ≠ []) by (intros ->; done).
  assert (Hm1 : typedMap s1 = <[currentPosition s := ch]> (typedMap s)).
  { subst s1. rewrite processInput_typedMap by done. rewrite Hcp.
    cbn [render_of r_currentPosition r_typedMap]. by rewrite commitLoop_non_blank. }
  assert (Hp1 : currentPosition s1 = currentPosition s + 1).
  { subst s1. rewrite processInput_currentPosition by done. rewrite Hcp.
    cbn [render_of r_currentPosition r_typedMap]. by rewrite commitLoop_non_blank. }
  assert (Hc1 : isComposing s1 = false).
  { subst s1. by destruct (processInput_rest content (render_of s) t1 ch s)
      as (_ & _ & _ & -> & _). }
  split.
  - rewrite Hm1. by apply errorCount_insert.
  - subst s2. cbn. unfold handleKeyDown. rewrite Hc1.
    rewrite bool_decide_eq_true_2 by lia. cbn.
    rewrite Hp1, Hm1.
    replace (currentPosition s + 1 - 1) with (currentPosition s) by lia.
    by rewrite delete_insert_id.
Qed.

Lemma error_count_follows_commit_witness :
  let content := js "cat" in
  let s := handle content 1%Z (Input (js "c")) initial in
  let s1 := processInput content (render_of s) 2%Z (js "o") s in
  isComposing s = false
  ∧ currentPosition s < length content
  ∧ typedMap s !! currentPosition s = None
  ∧ errorCount content (typedMap s1) = errorCount content (typedMap s) + 1.
Proof.
  intros content s s1.
  assert (Hc : isComposing s = false) by reflexivity.
  assert (Hlt : currentPosition s < length content) by (vm_compute; lia).
  assert (Hfresh : typedMap s !! currentPosition s = None) by reflexivity.
  split; [exact Hc |]. split; [exact Hlt |]. split; [exact Hfresh |].
  exact (proj1 (error_count_follows_commit content s 2%Z 3%Z (js "o")
                  Hc Hlt Hfresh eq_refl eq_refl ltac:(discriminate))).
Defined.

(** ** How far a paste reaches *)

Section PasteReach.

Variable content : jsstring.

Lemma commitLoop_length_bound chars : ∀ pos next,
  (commitLoop content chars pos next).1 ≤ pos + length chars.
Proof.
  induction chars as [| rawCh rest IH]; intros pos next; [cbn; lia |].
  cbn [commitLoop length].
  case_bool_decide; [cbn; lia |].
  destruct (bool_decide ((if bool_decide (rawCh = [CR]) then [] else rawCh) = [])).
  { specialize (IH pos next). lia. }
  destruct (is_blank _ && negb _).
  { specialize (IH pos next). lia. }
  set (ch := if bool_decide (rawCh = [CR]) then [] else rawCh).
  specialize (IH (pos + 1) (<[pos := ch]> next)). lia.
Qed.

Lemma commitLoop_plain chars :
  Forall (λ ch, ch ≠ [] ∧ ch ≠ [CR] ∧ is_blank ch = false) chars →
  ∀ pos next, pos ≤ length content →
  (commitLoop content chars pos next).1 = (pos + length chars) `min` length content
  ∧ ∀ k ch, chars !! k = Some ch → pos + k < length content →
            (commitLoop content chars pos next).2 !! (pos + k) = Some ch.
Proof.
  induction 1 as [| ch rest (Hne & Hcr & Hb) _ IH]; intros pos next Hpos.
  - split; [cbn; lia | intros k ch Hk; by rewrite lookup_nil in Hk].
  - destruct (decide (pos < length content)) as [Hlt | Hge].
    + rewrite commitLoop_non_blank by done.
      destruct (IH (pos + 1) (<[pos := ch]> next) ltac:(lia)) as [IHp IHm].
      split; [rewrite IHp; cbn [length]; lia |].
      intros k c Hk Hin. destruct k as [| k'].
      * injection Hk as <-. rewrite Nat.add_0_r.
        destruct (commitLoop content rest (pos + 1) (<[pos := ch]> next))
          as [p1 n1] eqn:Hrun.
        apply commitLoop_spec in Hrun as (_ & _ & Hout & _).
        cbn. rewrite Hout by lia. apply lookup_insert_eq.
      * replace (pos + S k') with (pos + 1 + k') by lia.
        apply IHm; [exact Hk | lia].
    + rewrite commitLoop_at_end by lia.
      split; [cbn [fst length]; lia | intros; lia].
Qed.

End PasteReach.

(** X15. A paste never moves the cursor back and never further than the
    number of characters pasted.  If every pasted character is committable
    (not a space, newline, tab or carriage return) and the cursor starts
    within the text, the paste fills the following positions in order and
    is cut at the end of the text: the cursor lands on
    [min (p + n) L], and the k-th character sits at [p + k] whenever that
    position exists. *)
Theorem paste_is_cut_at_end (content : jsstring) (s : state) (now : Z) (text : jsstring) :
  let s' := processInput content (render_of s) now text s in
  let chars := codePoints text in
  currentPosition s ≤ currentPosition s' ≤ currentPosition s + length chars
  ∧ (Forall (λ ch, ch ≠ [] ∧ ch ≠ [CR] ∧ is_blank ch = false) chars →
     currentPosition s ≤ length content →
     currentPosition s' = (currentPosition s + length chars) `min` length content
     ∧ ∀ k ch, chars !! k = Some ch → currentPosition s + k < length content →
               typedMap s' !! (currentPosition s + k) = Some ch).
Proof.
  intros s' chars. subst s' chars.
  destruct (decide (text = [])) as [-> | Hne].
  { rewrite processInput_empty. cbn. split; [lia |].
    intros _ Hpos. split; [lia |]. intros k ch Hk. by rewrite lookup_nil in Hk. }
  rewrite processInput_currentPosition, processInput_typedMap by done.
  cbn [render_of r_currentPosition r_typedMap].
  split.
  - pose proof (commitLoop_length_bound content (codePoints text)
                  (currentPosition s) (typedMap s)) as Hub.
    destruct (commitLoop content (codePoints text) (currentPosition s) (typedMap s))
      as [pos next] eqn:Hrun.
    apply commitLoop_spec in Hrun as (Hle & _). cbn in *. lia.
  - intros Hplain Hpos. by apply commitLoop_plain.
Qed.

Lemma paste_is_cut_at_end_witness :
  let content := js "cat" in
  let s := handle content 1%Z (Input (js "c")) initial in
  let s' := processInput content (render_of s) 2%Z (js "otter") s in
  Forall (λ ch, ch ≠ [] ∧ ch ≠ [CR] ∧ is_blank ch = false) (codePoints (js "otter"))
  ∧ currentPosition s ≤ length content
  ∧ currentPosition s' = 3
  ∧ typedMap s' !! 2 = Some (js "t").
Proof.
  intros content s s'.
  assert (Hplain : Forall (λ ch, ch ≠ [] ∧ ch ≠ [CR] ∧ is_blank ch = false)
                          (codePoints (js "otter"))).
  { repeat (apply Forall_cons; split;
            [split; [discriminate | split; [discriminate | reflexivity]] |]).
    apply Forall_nil_2. }
  assert (Hpos : currentPosition s ≤ length content) by (vm_compute; lia).
  destruct (proj2 (paste_is_cut_at_end content s 2%Z (js "otter")) Hplain Hpos)
    as [Hp Hm].
  split; [exact Hplain |]. split; [exact Hpos |].
  split; [exact Hp |].
  apply (Hm 1 (js "t")); [reflexivity | vm_compute; lia].
Defined.

(** ** Display *)

(** Counting positions of the text with an entry that satisfies [P] is the
    same as counting such entries in the map, when all keys are positions. *)
Lemma seq_filter_map_to_list (P : nat → jsstring → bool) : ∀ (L : nat) (m : gmap nat jsstring),
  (∀ i, is_Some (m !! i) → i < L) →
  length (List.filter (λ i, match m !! i with Some x => P i x | None => false end)
                      (seq 0 L))
  = length (List.filter (λ e : nat * jsstring, P e.1 e.2) (map_to_list m)).
Proof.
  induction L as [| L IH]; intros m Hkeys.
  - assert (m = ∅) as ->.
    { apply map_empty. intros i. apply eq_None_not_Some. intros Hi.
      specialize (Hkeys i Hi). lia. }
    by rewrite map_to_list_empty.
  - rewrite seq_S, List.filter_app, length_app. cbn [Nat.add List.filter].
    rewrite (List.filter_ext_in _
      (λ i, match delete L m !! i with Some x => P i x | None => false end)).
    2:{ intros i Hi. apply in_seq in Hi. by rewrite lookup_delete_ne by lia. }
    rewrite IH.
    2:{ intros i Hi. apply lookup_delete_is_Some in Hi as [Hne Hi].
        specialize (Hkeys i Hi). lia. }
    destruct (m !! L) as [x |] eqn:HL.
    + rewrite <- (filter_length_perm _ _ _ (map_to_list_delete m L x HL)).
      cbn. destruct (P L x); cbn; lia.
    + rewrite delete_id by done. cbn. lia.
Qed.

Lemma filter_true_length {A} (l : list A) : length (List.filter (λ _, true) l) = length l.
Proof. induction l as [| x l IH]; cbn; [done | by rewrite IH]. Qed.

Lemma updateCharPositions_lookup (containerRect : offset) (chars : list offset) (i : nat) :
  is_Some (updateCharPositions containerRect chars !! i) ↔ i < length chars.
Proof.
  unfold updateCharPositions. rewrite lookup_map_seq_0, list_lookup_fmap.
  rewrite fmap_is_Some. apply lookup_lt_is_Some.
Qed.

Section DisplayFacts.

Variable content : jsstring.
Variable charPositions : gmap nat offset.

Lemma cursorLayer_no_typed (c : nat) (Q : overlayPiece → bool) :
  (∀ l t, Q (CurrentChar l t) = false) → (∀ l t, Q (CursorIndicator l t) = false) →
  List.filter Q (cursorLayer content charPositions c) = [].
Proof.
  intros H1 H2. unfold cursorLayer.
  repeat (case_match; try done); cbn; by rewrite ?H1, ?H2.
Qed.

(** Pieces of one kind among the typed characters of the overlay. *)
Lemma overlay_filter_count (m : gmap nat jsstring) (Q : overlayPiece → bool)
    (P : nat → jsstring → bool) (l : list nat) :
  (∀ i x left top, Q (TypedChar (negb (strict_eq_src (content !! i) x)) i left top x) = P i x) →
  (∀ i, i ∈ l → is_Some (charPositions !! i)) →
  length (List.filter Q (concat (overlayAt content charPositions m <$> l)))
  = length (List.filter (λ i, match m !! i with Some x => P i x | None => false end) l).
Proof.
  intros HQ. induction l as [| i l IH]; intros Hmeasured; [done |].
  cbn [fmap list_fmap concat List.filter]. rewrite List.filter_app, length_app.
  rewrite IH by (intros j Hj; apply Hmeasured; by apply list_elem_of_further).
  destruct (Hmeasured i (list_elem_of_here _ _)) as [p Hp].
  unfold overlayAt. rewrite Hp.
  destruct (m !! i) as [x |]; [| done].
  cbn. rewrite HQ. by destruct (P i x).
Qed.

Lemma background_hidden_count (m : gmap nat jsstring) : ∀ (l : list code_unit) (j : nat),
  length (List.filter hidden (imap (λ i, backgroundAt m (j + i)) l))
  = length (List.filter (λ i, match m !! i with Some x => true | None => false end)
                        (seq j (length l))).
Proof.
  induction l as [| u l IH]; intros j; [done |].
  cbn [imap length seq List.filter]. rewrite Nat.add_0_r.
  rewrite (imap_ext _ (λ i, backgroundAt m (S j + i))).
  2:{ intros i x _. cbn. f_equal. lia. }
  unfold backgroundAt at 1. cbn [hidden].
  destruct (m !! j) as [x |] eqn:Hj.
  - rewrite bool_decide_eq_true_2 by (by eexists). cbn [length]. by rewrite IH.
  - rewrite bool_decide_eq_false_2 by (intros [? ?]; done). apply IH.
Qed.

End DisplayFacts.

(** X16. What the overlay shows.  When every position of the text has been
    measured and every key of the map is a position of the text (which
    holds after any run), the overlay built by [getDisplayText] contains
    exactly one typed-character piece per map entry, and exactly
    [errorCount] of them carry the class [error-char]: the display and the
    error metric agree. *)
Theorem overlay_matches_map_and_errors (content : jsstring)
    (charPositions : gmap nat offset) (s : state) :
  (∀ i, i < length content → is_Some (charPositions !! i)) →
  (∀ i, is_Some (typedMap s !! i) → i < length content) →
  let overlay := (getDisplayText content charPositions s).2 in
  length (List.filter is_typed_piece overlay) = size (typedMap s)
  ∧ length (List.filter is_error_piece overlay) = errorCount content (typedMap s).
Proof.
  intros Hmeasured Hkeys overlay. subst overlay. unfold getDisplayText. cbn [snd].
  assert (Hseq : ∀ i, i ∈ seq 0 (length content) → is_Some (charPositions !! i)).
  { intros i Hi. apply elem_of_seq in Hi. apply Hmeasured. lia. }
  split.
  - rewrite List.filter_app, length_app, cursorLayer_no_typed by done.
    rewrite (overlay_filter_count content charPositions _ _ (λ _ _, true)) by done.
    rewrite (seq_filter_map_to_list (λ _ _, true)) by done.
    rewrite filter_true_length, length_map_to_list. cbn. lia.
  - rewrite List.filter_app, length_app, cursorLayer_no_typed by done.
    rewrite (overlay_filter_count content charPositions _ _
               (λ i x, negb (strict_eq_src (content !! i) x))) by done.
    rewrite (seq_filter_map_to_list (λ i x, negb (strict_eq_src (content !! i) x)))
      by done.
    unfold errorCount. cbn. lia.
Qed.

Lemma overlay_matches_map_and_errors_witness :
  let content := js "cat" in
  let charPositions := updateCharPositions (Offset 10 20)
                         [Offset 10 20; Offset 26 20; Offset 42 20] in
  let s := handle content 1%Z (Input (js "co")) initial in
  (∀ i, i < length content → is_Some (charPositions !! i))
  ∧ (∀ i, is_Some (typedMap s !! i) → i < length content)
  ∧ length (List.filter is_typed_piece (getDisplayText content charPositions s).2) = 2
  ∧ length (List.filter is_error_piece (getDisplayText content charPositions s).2) = 1.
Proof.
  intros content charPositions s.
  assert (Hmeasured : ∀ i, i < length content → is_Some (charPositions !! i)).
  { intros i Hi. by apply updateCharPositions_lookup. }
  assert (Hkeys : ∀ i, is_Some (typedMap s !! i) → i < length content).
  { apply (typed_keys_bound_aux content [(1%Z, Input (js "co"))]).
    apply Forall_cons. split; [exact I | apply Forall_nil_2]. }
  destruct (overlay_matches_map_and_errors content charPositions s Hmeasured Hkeys)
    as [Ht He].
  split; [exact Hmeasured |]. split; [exact Hkeys |].
  split; [exact (eq_trans Ht eq_refl) | exact (eq_trans He eq_refl)].
Defined.



(** X18. The background layer has one span per position of the text, in
    order, carrying that position as its index and the reference character
    as its glyph; a span is hidden exactly when its position has an entry,
    so, all keys being positions, the number of hidden spans is the size of
    the map. *)
Theorem background_hides_typed_positions (content : jsstring)
    (charPositions : gmap nat offset) (s : state) :
  let background := (getDisplayText content charPositions s).1 in
  length background = length content
  ∧ (∀ i u, content !! i = Some u →
       background !! i
       = Some (RemainingChar i (bool_decide (is_Some (typedMap s !! i))) u))
  ∧ ((∀ i, is_Some (typedMap s !! i) → i < length content) →
     length (List.filter hidden background) = size (typedMap s)).
Proof.
  intros background. subst background. unfold getDisplayText. cbn [fst].
  split; [apply length_imap |]. split.
  - intros i u Hu. by rewrite list_lookup_imap, Hu.
  - intros Hkeys.
    rewrite (imap_ext _ (λ i, backgroundAt (typedMap s) (0 + i))) by done.
    rewrite background_hidden_count.
    rewrite (seq_filter_map_to_list (λ _ _, true)) by done.
    by rewrite filter_true_length, length_map_to_list.
Qed.

Lemma background_hides_typed_positions_witness :
  let content := js "cat" in
  let s := handle content 1%Z (Input (js "co")) initial in
  (∀ i, is_Some (typedMap s !! i) → i < length content)
  ∧ length (List.filter hidden (getDisplayText content ∅ s).1) = 2.
Proof.
  intros content s.
  assert (Hkeys : ∀ i, is_Some (typedMap s !! i) → i < length content).
  { apply (typed_keys_bound_aux content [(1%Z, Input (js "co"))]).
    apply Forall_cons. split; [exact I | apply Forall_nil_2]. }
  split; [exact Hkeys |].
  exact (eq_trans (proj2 (proj2 (background_hides_typed_positions content ∅ s)) Hkeys)
                  eq_refl).
Defined.

(** ** Backspace over an overwritten position *)

(** X19. Backspace clears, it does not restore.  Outside a composition, if
    an input moves the cursor from [p] to [p + 1], Backspace right after it
    puts the cursor back at [p] and leaves the map as it was before the
    input with position [p] emptied: an entry that the input overwrote is
    gone, not brought back. *)
Theorem backspace_after_commit_clears (content : jsstring) (s : state) (t1 t2 : Z)
    (text : jsstring) :
  isComposing s = false →
  let s1 := processInput content (render_of s) t1 text s in
  let s2 := handle content t2 (KeyDown Backspace) s1 in
  currentPosition s1 = currentPosition s + 1 →
  currentPosition s2 = currentPosition s
  ∧ typedMap s2 = delete (currentPosition s) (typedMap s).
Proof.
  intros Hc s1 s2 Hadv.
  assert (Hne : text ≠ []).
  { intros ->. subst s1. rewrite processInput_empty in Hadv. lia. }
  assert (Hc1 : isComposing s1 = false).
  { subst s1. by destruct (processInput_rest content (render_of s) t1 text s)
      as (_ & _ & _ & -> & _). }
  assert (Hm1 : typedMap s1 =
                (commitLoop content (codePoints text) (currentPosition s) (typedMap s)).2).
  { subst s1. by rewrite processInput_typedMap. }
  assert (Hp1 : currentPosition s1 =
                (commitLoop content (codePoints text) (currentPosition s) (typedMap s)).1).
  { subst s1. by rewrite processInput_currentPosition. }
  destruct (commitLoop _ _ _ _) as [pos next] eqn:Hrun. cbn in Hm1, Hp1.
  apply commitLoop_spec in Hrun as (_ & _ & Hout & _).
  subst s2. cbn. unfold handleKeyDown. rewrite Hc1.
  rewrite bool_decide_eq_true_2 by lia. cbn.
  replace (currentPosition s1 - 1) with (currentPosition s) by lia.
  split; [done |].
  apply map_eq. intros i. destruct (decide (i = currentPosition s)) as [-> | Hi].
  - by rewrite !lookup_delete_eq.
  - rewrite !lookup_delete_ne by done. rewrite Hm1. apply Hout. lia.
Qed.

Lemma backspace_after_commit_clears_witness :
  let content := js "cat" in
  let s := handle content 2%Z (KeyDown Home)
             (handle content 1%Z (Input (js "cat")) initial) in
  let s1 := processInput content (render_of s) 3%Z (js "k") s in
  let s2 := handle content 4%Z (KeyDown Backspace) s1 in
  isComposing s = false
  ∧ currentPosition s1 = currentPosition s + 1
  ∧ typedMap s !! 0 = Some (js "c")
  ∧ typedMap s2 !! 0 = None.
Proof.
  intros content s s1 s2.
  assert (Hc : isComposing s = false) by reflexivity.
  assert (Hadv : currentPosition s1 = currentPosition s + 1) by reflexivity.
  destruct (backspace_after_commit_clears content s 3%Z 4%Z (js "k") Hc Hadv) as [_ Hm].
  split; [exact Hc |]. split; [exact Hadv |]. split; [reflexivity |].
  fold s1 s2 in Hm. rewrite Hm. apply lookup_delete_eq.
Defined.

(** ** Rounding *)

Lemma percent_rounds_to_100 (n t : nat) :
  n ≤ t → 200 * (t - n) < t →
  Math_round (js_mul (js_div (of_nat n) (of_nat t)) (of_nat 100)) = Num 100.
Proof.
  intros Hle Hnear. assert (Ht : 0 < t) by lia.
  unfold of_nat, js_div. rewrite Qeq_bool_inject_pos by lia.
  cbn [js_mul Math_round]. change (Num 100) with (Num (inject_Z 100)).
  f_equal. f_equal.
  change (inject_Z (Z.of_nat 100)) with 100%Q.
  assert (Hpos : (0 < inject_Z (Z.of_nat t))%Q).
  { change 0%Q with (inject_Z 0). rewrite <- Zlt_Qlt. lia. }
  apply Z.le_antisymm.
  - change 100%Z with (Qfloor (1 * 100 + (1 # 2))). apply Qfloor_resp_le.
    apply Qplus_le_compat; [| apply Qle_refl].
    apply Qmult_le_compat_r; [| done]. by apply ratio_bounds.
  - change 100%Z with (Qfloor ((199 # 2) + (1 # 2))). apply Qfloor_resp_le.
    apply Qplus_le_compat; [| apply Qle_refl].
    apply (Qle_trans _ ((199 # 200) * 100)); [done |].
    apply Qmult_le_compat_r; [| done].
    apply Qle_shift_div_l; [done |].
    unfold Qle, Qmult, inject_Z. cbn. lia.
Qed.

(** X20. The rounded figures reach 100 before the work is done.  If fewer
    than one position in two hundred is still without an entry, the progress
    figure is already 100; and a metrics tick reports accuracy 100 as soon
    as fewer than one entry in two hundred is a mismatch. *)
Theorem figures_round_up_to_100 (content : jsstring) (s : state) (now : Z) :
  (200 * (length content - size (typedMap s)) < length content →
   size (typedMap s) ≤ length content →
   progress content s = Num 100)
  ∧ (isStarted s = true → (0 < startTime s)%Z →
     200 * errorCount content (typedMap s) < size (typedMap s) →
     accuracy (handleTick content now s) = Num 100).
Proof.
  split.
  - intros Hnear Hle. unfold progress. by apply percent_rounds_to_100.
  - intros Hst Ht Hnear. unfold handleTick.
    rewrite Hst, bool_decide_eq_true_2 by done. cbn [andb].
    rewrite bool_decide_eq_true_2 by lia.
    pose proof (errorCount_le_size content (typedMap s)) as Hec.
    assert (Hacc : Math_round (js_mul (js_div
                     (of_nat (size (typedMap s) - errorCount content (typedMap s)))
                     (of_nat (size (typedMap s)))) (of_nat 100)) = Num 100).
    { apply percent_rounds_to_100; lia. }
    by destruct (js_gt0 _).
Qed.

Lemma figures_round_up_to_100_witness :
  let content := replicate 201 97%N in
  let s := handle content 1%Z (Input (replicate 200 97%N)) initial in
  200 * (length content - size (typedMap s)) < length content
  ∧ size (typedMap s) ≤ length content
  ∧ size (typedMap s) = 200
  ∧ progress content s = Num 100.
Proof.
  intros content s.
  assert (Hsize : size (typedMap s) = 200) by (vm_compute; reflexivity).
  assert (Hnear : 200 * (length content - size (typedMap s)) < length content).
  { rewrite Hsize. vm_compute. lia. }
  assert (Hle : size (typedMap s) ≤ length content).
  { rewrite Hsize. vm_compute. lia. }
  split; [exact Hnear |]. split; [exact Hle |]. split; [exact Hsize |].
  exact (proj1 (figures_round_up_to_100 content s 0%Z) Hnear Hle).
Defined.

(** * The figures as the engine computes them

    The theorems of this part are about [handleTick64], [progress64] and
    [run64], where every quotient and product is rounded to binary64. *)

(** ** Binary64 rounding *)

Lemma pow2_pos (e : Z) : (0 < pow2 e)%Q.
Proof. apply Qpower_0_lt. reflexivity. Qed.

Lemma pow2_add (a b : Z) : (pow2 (a + b) == pow2 a * pow2 b)%Q.
Proof. apply Qpower_plus. discriminate. Qed.

Lemma pow2_int (e : Z) : (0 ≤ e)%Z → (pow2 e == inject_Z (2 ^ e))%Q.
Proof. intros He. symmetry. by apply Zpower_Qpower. Qed.

Lemma pow2_le (a b : Z) : (a ≤ b)%Z → (pow2 a <= pow2 b)%Q.
Proof. intros H. by apply Qpower_le_compat_l. Qed.

Lemma pow2_lt_inv (a b : Z) : (pow2 a < pow2 b)%Q → (a < b)%Z.
Proof. intros H. by apply (Qpower_lt_compat_l_inv 2). Qed.

Lemma Qdiv_le_mono (x y a b : Q) :
  (0 <= x)%Q → (x <= a)%Q → (0 < b)%Q → (b <= y)%Q → (x / y <= a / b)%Q.
Proof.
  intros Hx Hxa Hb Hby.
  assert (Hy : (0 < y)%Q) by (eapply Qlt_le_trans; eauto).
  apply Qle_shift_div_l; [done |].
  apply (Qle_trans _ (x * b / y)).
  { apply Qle_lteq. right. field. intros H. rewrite H in Hy. by apply Qlt_irrefl in Hy. }
  apply Qle_shift_div_r; [done |].
  apply (Qle_trans _ (a * b)).
  - apply Qmult_le_compat_r; [done | by apply Qlt_le_weak].
  - rewrite (Qmult_comm a b), (Qmult_comm a y).
    apply Qmult_le_compat_r; [done |]. by apply (Qle_trans _ x).
Qed.

(** The exponent found by [ilog2] is not too large: [2^e <= q]. *)
Lemma ilog2_le (q : Q) : (0 < q)%Q → (pow2 (ilog2 q) <= q)%Q.
Proof.
  intros Hq. unfold ilog2.
  destruct (Qle_bool _ q) eqn:Htest; [by apply Qle_bool_iff |].
  destruct q as [a b]. cbn [Qnum Qden].
  assert (Ha : (0 < a)%Z).
  { unfold Qlt in Hq. cbn in Hq. lia. }
  pose proof (Z.log2_spec a Ha) as [Hla _].
  pose proof (Z.log2_spec (Zpos b) (Pos2Z.is_pos b)) as [_ Hlb].
  pose proof (Z.log2_nonneg a) as Hla0.
  pose proof (Z.log2_nonneg (Zpos b)) as Hlb0.
  replace (Z.log2 a - Z.log2 (Z.pos b) - 1)%Z
    with (Z.log2 a + - (Z.succ (Z.log2 (Z.pos b))))%Z by lia.
  rewrite pow2_add. unfold pow2 at 2. rewrite Qpower_opp. fold (pow2 (Z.succ (Z.log2 (Z.pos b)))).
  rewrite (Qmake_Qdiv a b).
  apply Qdiv_le_mono.
  - apply Qlt_le_weak, pow2_pos.
  - rewrite pow2_int by done. by rewrite <- Zle_Qle.
  - change 0%Q with (inject_Z 0). by rewrite <- Zlt_Qlt.
  - rewrite pow2_int by lia. rewrite <- Zle_Qle. lia.
Qed.

Lemma round_half_even_le (x : Q) (K : Z) :
  (x <= inject_Z K)%Q → (round_half_even x ≤ K)%Z.
Proof.
  intros Hx. unfold round_half_even.
  assert (Hf : (Qfloor x ≤ K)%Z).
  { rewrite <- (Qfloor_Z K). by apply Qfloor_resp_le. }
  assert (Hstep : (0 < x - inject_Z (Qfloor x))%Q → (Qfloor x + 1 ≤ K)%Z).
  { intros Hfrac. assert (Hlt : (inject_Z (Qfloor x) < inject_Z K)%Q).
    { apply (Qlt_le_trans _ x); [| done].
      apply (Qplus_lt_l _ _ (- inject_Z (Qfloor x))).
      rewrite Qplus_opp_r. exact Hfrac. }
    rewrite <- Zlt_Qlt in Hlt. lia. }
  destruct (Qcompare_spec (x - inject_Z (Qfloor x)) (1 # 2)) as [He | Hl | Hg].
  - destruct (Z.even (Qfloor x)); [done |]. apply Hstep. by rewrite He.
  - done.
  - apply Hstep. by apply (Qlt_trans _ (1 # 2)).
Qed.

Lemma round_half_even_ge (x : Q) (K : Z) :
  (inject_Z K <= x)%Q → (K ≤ round_half_even x)%Z.
Proof.
  intros Hx. unfold round_half_even.
  assert (Hf : (K ≤ Qfloor x)%Z).
  { rewrite <- (Qfloor_Z K). by apply Qfloor_resp_le. }
  destruct (Qcompare _ _); [destruct (Z.even _) | |]; lia.
Qed.

Lemma on_grid (c k j : Z) :
  (j ≤ k)%Z → (inject_Z c * pow2 k / pow2 j == inject_Z (c * 2 ^ (k - j)))%Q.
Proof.
  intros Hjk.
  assert (Hsplit : (pow2 k == pow2 (k - j) * pow2 j)%Q).
  { rewrite <- pow2_add. by replace (k - j + j)%Z with k by lia. }
  rewrite Hsplit, inject_Z_mult, (pow2_int (k - j)) by lia.
  field. intros H. pose proof (pow2_pos j) as Hp. rewrite H in Hp. by apply Qlt_irrefl in Hp.
Qed.

Lemma scaled_lt_pow2 (c k : Z) :
  (c < 2 ^ 53)%Z → (inject_Z c * pow2 k < pow2 (53 + k))%Q.
Proof.
  intros Hc. rewrite pow2_add, (pow2_int 53) by lia.
  apply Qmult_lt_compat_r; [apply pow2_pos |]. by rewrite <- Zlt_Qlt.
Qed.

Lemma Qdiv_le_compat_r (x y z : Q) : (x <= y)%Q → (0 < z)%Q → (x / z <= y / z)%Q.
Proof.
  intros Hxy Hz. apply Qmult_le_compat_r; [done |].
  apply Qinv_le_0_compat. by apply Qlt_le_weak.
Qed.

Lemma Qdiv_mult_cancel (x z : Q) : (0 < z)%Q → (x / z * z == x)%Q.
Proof.
  intros Hz. field. intros H. rewrite H in Hz. by apply Qlt_irrefl in Hz.
Qed.

(** A bound of the form [c * 2^k] with [c < 2^53], that is, a binary64
    value, is respected by rounding: from above ... *)
Lemma b64_pos_upper (q : Q) (c k : Z) :
  (0 < q)%Q → (q <= inject_Z c * pow2 k)%Q →
  (c < 2 ^ 53)%Z → (-1074 ≤ k)%Z → (k + 53 ≤ 1024)%Z →
  ∃ r, b64_pos q = Some r ∧ (0 <= r)%Q ∧ (r <= inject_Z c * pow2 k)%Q.
Proof.
  intros Hq Hle Hc Hk Hmax. unfold b64_pos.
  set (e := Z.max (ilog2 q) (-1022)).
  set (ulp := pow2 (e - 52)).
  assert (Hulp : (0 < ulp)%Q) by apply pow2_pos.
  assert (He : (e - 52 ≤ k)%Z).
  { assert (ilog2 q < 53 + k)%Z; [| lia].
    apply pow2_lt_inv. apply (Qle_lt_trans _ q); [by apply ilog2_le |].
    apply (Qle_lt_trans _ _ _ Hle). by apply scaled_lt_pow2. }
  assert (Hm : (q / ulp <= inject_Z (c * 2 ^ (k - (e - 52))))%Q).
  { rewrite <- on_grid by done. by apply Qdiv_le_compat_r. }
  apply round_half_even_le in Hm.
  assert (Hm0 : (0 ≤ round_half_even (q / ulp))%Z).
  { apply round_half_even_ge. apply Qle_shift_div_l; [done |].
    rewrite Qmult_0_l. by apply Qlt_le_weak. }
  assert (Hr : (inject_Z (round_half_even (q / ulp)) * ulp <= inject_Z c * pow2 k)%Q).
  { rewrite <- (Qdiv_mult_cancel (inject_Z c * pow2 k) ulp Hulp).
    apply Qmult_le_compat_r; [| by apply Qlt_le_weak].
    unfold ulp. rewrite on_grid by done. by rewrite <- Zle_Qle. }
  destruct (Qle_bool (pow2 1024) _) eqn:Hover.
  { apply Qle_bool_iff in Hover. exfalso.
    assert (Hlt : (pow2 1024 < pow2 (53 + k))%Q).
    { apply (Qle_lt_trans _ _ _ Hover). apply (Qle_lt_trans _ _ _ Hr).
      by apply scaled_lt_pow2. }
    apply pow2_lt_inv in Hlt. lia. }
  eexists. split; [reflexivity |]. split; [| exact Hr].
  apply Qmult_le_0_compat; [| by apply Qlt_le_weak].
  change 0%Q with (inject_Z 0). by rewrite <- Zle_Qle.
Qed.

(** ... and from below. *)
Lemma b64_pos_lower (q : Q) (c k : Z) (r : Q) :
  (0 < q)%Q → (inject_Z c * pow2 k <= q)%Q →
  (c < 2 ^ 53)%Z → (-1074 ≤ k)%Z →
  b64_pos q = Some r → (inject_Z c * pow2 k <= r)%Q.
Proof.
  intros Hq Hle Hc Hk. unfold b64_pos.
  set (e := Z.max (ilog2 q) (-1022)).
  set (ulp := pow2 (e - 52)).
  assert (Hulp : (0 < ulp)%Q) by apply pow2_pos.
  destruct (Qle_bool (pow2 1024) _); [done |]. intros [= <-].
  destruct (Z.le_gt_cases (e - 52) k) as [He | He].
  - assert (Hm : (inject_Z (c * 2 ^ (k - (e - 52))) <= q / ulp)%Q).
    { rewrite <- on_grid by done. by apply Qdiv_le_compat_r. }
    apply round_half_even_ge in Hm.
    rewrite <- (Qdiv_mult_cancel (inject_Z c * pow2 k) ulp Hulp).
    apply Qmult_le_compat_r; [| by apply Qlt_le_weak].
    unfold ulp. rewrite on_grid by done. by rewrite <- Zle_Qle.
  - assert (Hunclipped : e = ilog2 q) by lia.
    assert (Hm : (inject_Z (1 * 2 ^ (e - (e - 52))) <= q / ulp)%Q).
    { rewrite <- (on_grid 1 e (e - 52)) by lia. apply Qdiv_le_compat_r; [| done].
      change (inject_Z 1) with 1%Q. rewrite Qmult_1_l, Hunclipped. by apply ilog2_le. }
    apply round_half_even_ge in Hm.
    apply (Qle_trans _ (pow2 e)).
    + apply (Qle_trans _ (pow2 (53 + k))); [apply Qlt_le_weak; by apply scaled_lt_pow2 |].
      apply pow2_le. lia.
    + apply (Qle_trans _ (inject_Z 1 * pow2 e / ulp * ulp)).
      { rewrite Qdiv_mult_cancel by done. change (inject_Z 1) with 1%Q.
        rewrite Qmult_1_l. apply Qle_refl. }
      apply Qmult_le_compat_r; [| by apply Qlt_le_weak].
      unfold ulp. rewrite (on_grid 1 e (e - 52)) by lia. by rewrite <- Zle_Qle.
Qed.

Lemma b64_pos_nonneg (q r : Q) : (0 < q)%Q → b64_pos q = Some r → (0 <= r)%Q.
Proof.
  intros Hq. unfold b64_pos.
  destruct (Qle_bool (pow2 1024) _); [done |]. intros [= <-].
  apply Qmult_le_0_compat; [| apply Qlt_le_weak, pow2_pos].
  change 0%Q with (inject_Z 0). rewrite <- Zle_Qle.
  apply round_half_even_ge. apply Qle_shift_div_l; [apply pow2_pos |].
  rewrite Qmult_0_l. by apply Qlt_le_weak.
Qed.

(** The same at the level of numbers. *)
Lemma b64_upper (q : Q) (c k : Z) :
  (0 <= q)%Q → (q <= inject_Z c * pow2 k)%Q →
  (c < 2 ^ 53)%Z → (-1074 ≤ k)%Z → (k + 53 ≤ 1024)%Z →
  ∃ r, b64 q = Num r ∧ (0 <= r)%Q ∧ (r <= inject_Z c * pow2 k)%Q.
Proof.
  intros Hq Hle Hc Hk Hmax. unfold b64.
  destruct (Qcompare_spec q 0) as [H0 | Hneg | Hpos].
  - exists 0%Q. split; [done |]. split; [done |]. by rewrite <- H0.
  - exfalso. apply (Qlt_irrefl q). by apply (Qlt_le_trans _ 0).
  - destruct (b64_pos_upper q c k Hpos Hle Hc Hk Hmax) as (r & -> & Hr).
    by exists r.
Qed.

Lemma b64_lower (q : Q) (c k : Z) (r : Q) :
  (0 < q)%Q → (inject_Z c * pow2 k <= q)%Q →
  (c < 2 ^ 53)%Z → (-1074 ≤ k)%Z →
  b64 q = Num r → (inject_Z c * pow2 k <= r)%Q.
Proof.
  intros Hq Hle Hc Hk. unfold b64.
  destruct (Qcompare_spec q 0) as [H0 | Hneg | Hpos].
  - rewrite H0 in Hq. by apply Qlt_irrefl in Hq.
  - exfalso. apply (Qlt_irrefl q). by apply (Qlt_trans _ 0).
  - destruct (b64_pos q) as [r' |] eqn:Hr; [| done]. intros [= <-].
    by apply (b64_pos_lower q c k).
Qed.

Lemma b64_not_positive (q : Q) : (q <= 0)%Q → js_gt0 (b64 q) = false.
Proof.
  intros Hq. unfold b64.
  destruct (Qcompare_spec q 0) as [H0 | Hneg | Hpos].
  - done.
  - destruct (b64_pos (- q)) as [r |] eqn:Hr; [| done].
    cbn. apply negb_false_iff, Qle_bool_iff.
    assert (Hr0 : (0 <= r)%Q).
    { apply (b64_pos_nonneg (- q)); [| done].
      change 0%Q with (- 0)%Q. by apply Qopp_lt_compat. }
    change 0%Q with (- 0)%Q. by apply Qopp_le_compat.
  - exfalso. apply (Qlt_irrefl q). by apply (Qle_lt_trans _ 0).
Qed.

(** ** The figures in binary64 *)

Lemma grid_1 : (inject_Z 1 * pow2 0 <= 1)%Q ∧ (1 <= inject_Z 1 * pow2 0)%Q.
Proof. split; discriminate. Qed.

Lemma grid_100 : (inject_Z 100 * pow2 0 <= 100)%Q ∧ (100 <= inject_Z 100 * pow2 0)%Q.
Proof. split; discriminate. Qed.

Lemma ratio64 (n t : nat) :
  n ≤ t → 0 < t →
  ∃ r, js_div64 (of_nat n) (of_nat t) = Num r
       ∧ (0 <= r)%Q ∧ (r <= 1)%Q ∧ (n = t → (1 <= r)%Q) ∧ (n = 0 → (r <= 0)%Q).
Proof.
  intros Hle Ht.
  destruct (ratio_bounds n t Hle Ht) as [Hq0 Hq1].
  unfold js_div64, of_nat, js_div. rewrite Qeq_bool_inject_pos by lia.
  set (q := (inject_Z (Z.of_nat n) / inject_Z (Z.of_nat t))%Q) in *.
  destruct (b64_upper q 1 0) as (r & Hr & Hr0 & Hr1); try done.
  exists r. split; [done |]. split; [done |].
  split; [apply (Qle_trans _ _ _ Hr1), grid_1 |]. split.
  - intros ->. apply (Qle_trans _ (inject_Z 1 * pow2 0)); [apply grid_1 |].
    assert (Hone : (1 <= q)%Q).
    { unfold q. apply Qle_shift_div_l.
      * change 0%Q with (inject_Z 0). rewrite <- Zlt_Qlt. lia.
      * rewrite Qmult_1_l. apply Qle_refl. }
    apply (b64_lower q 1 0); try done;
      try (by apply (Qlt_le_trans _ 1));
      try (apply (Qle_trans _ 1); [apply grid_1 | done]).
  - intros ->. assert (Hz : (q == 0)%Q).
    { unfold q. change (inject_Z (Z.of_nat 0)) with 0%Q. unfold Qdiv. apply Qmult_0_l. }
    unfold b64 in Hr. apply Qeq_alt in Hz. rewrite Hz in Hr. by injection Hr as <-.
Qed.

Lemma percent64 (r : Q) :
  (0 <= r)%Q → (r <= 1)%Q →
  ∃ p, js_mul64 (Num r) (of_nat 100) = Num p
       ∧ (0 <= p)%Q ∧ (p <= 100)%Q ∧ ((1 <= r)%Q → (100 <= p)%Q) ∧ ((r <= 0)%Q → (p <= 0)%Q).
Proof.
  intros Hr0 Hr1. unfold js_mul64, of_nat, js_mul.
  change (inject_Z (Z.of_nat 100)) with 100%Q.
  assert (Hq0 : (0 <= r * 100)%Q) by (apply Qmult_le_0_compat; done).
  assert (Hq1 : (r * 100 <= inject_Z 100 * pow2 0)%Q).
  { apply (Qle_trans _ (1 * 100)); [| apply grid_100]. apply Qmult_le_compat_r; done. }
  destruct (b64_upper (r * 100) 100 0) as (p & Hp & Hp0 & Hp1); try done.
  exists p. split; [done |]. split; [done |].
  split; [apply (Qle_trans _ _ _ Hp1), grid_100 |]. split.
  - intros Hone. apply (Qle_trans _ (inject_Z 100 * pow2 0)); [apply grid_100 |].
    assert (Hfull : (1 * 100 <= r * 100)%Q) by (apply Qmult_le_compat_r; done).
    apply (b64_lower (r * 100) 100 0); try done;
      try (by apply (Qlt_le_trans _ (1 * 100)));
      try (apply (Qle_trans _ (1 * 100)); [apply grid_100 | done]).
  - intros Hzero. assert (Hz : (r * 100 == 0)%Q).
    { assert (r == 0)%Q as -> by (by apply Qle_antisym). apply Qmult_0_l. }
    unfold b64 in Hp. apply Qeq_alt in Hz. rewrite Hz in Hp. by injection Hp as <-.
Qed.

Lemma Math_round_percent (p : Q) :
  (0 <= p)%Q → (p <= 100)%Q →
  ∃ z, Math_round (Num p) = Num (inject_Z z) ∧ (0 ≤ z ≤ 100)%Z
       ∧ ((100 <= p)%Q → z = 100%Z) ∧ ((p <= 0)%Q → z = 0%Z).
Proof.
  intros H0 H1. exists (Qfloor (p + (1 # 2))). split; [done |].
  assert (Hlo : (0 ≤ Qfloor (p + (1 # 2)))%Z).
  { change 0%Z with (Qfloor 0). apply Qfloor_resp_le.
    apply (Qle_trans _ (0 + 0)); [done |]. apply Qplus_le_compat; done. }
  assert (Hhi : (Qfloor (p + (1 # 2)) ≤ 100)%Z).
  { change 100%Z with (Qfloor (100 + (1 # 2))). apply Qfloor_resp_le.
    apply Qplus_le_compat; [done | apply Qle_refl]. }
  split; [done |]. split.
  - intros H. apply Z.le_antisymm; [done |].
    change 100%Z with (Qfloor (100 + 0)). apply Qfloor_resp_le.
    apply Qplus_le_compat; done.
  - intros H. apply Z.le_antisymm; [| done].
    change 0%Z with (Qfloor (0 + (1 # 2))). apply Qfloor_resp_le.
    apply Qplus_le_compat; [done | apply Qle_refl].
Qed.

(** [Math.round(n / t * 100)], each operation rounded to binary64, for
    [n <= t]: an integer from 0 to 100, 100 when [n = t], 0 when [n = 0]. *)
Lemma percent64_spec (n t : nat) :
  n ≤ t → 0 < t →
  ∃ z, Math_round (js_mul64 (js_div64 (of_nat n) (of_nat t)) (of_nat 100)) = Num (inject_Z z)
       ∧ (0 ≤ z ≤ 100)%Z ∧ (n = t → z = 100%Z) ∧ (n = 0 → z = 0%Z).
Proof.
  intros Hle Ht.
  destruct (ratio64 n t Hle Ht) as (r & -> & Hr0 & Hr1 & Hfull & Hnone).
  destruct (percent64 r Hr0 Hr1) as (p & -> & Hp0 & Hp1 & Hpfull & Hpnone).
  destruct (Math_round_percent p Hp0 Hp1) as (z & -> & Hz & Hzfull & Hznone).
  exists z. repeat split; try apply Hz; auto.
Qed.

Lemma minutes64 (d : Z) :
  let minutes := js_div64 (Num (inject_Z d)) (Num 60000) in
  ((d ≤ 0)%Z → js_gt0 minutes = false)
  ∧ ((0 < d)%Z → minutes = Infinity ∨ ∃ r, minutes = Num r ∧ (pow2 (-16) <= r)%Q).
Proof.
  intros minutes. subst minutes.
  change (js_div64 (Num (inject_Z d)) (Num 60000)) with (b64 (inject_Z d / 60000)).
  split; intros Hd.
  - apply b64_not_positive. apply Qle_shift_div_r; [done |].
    rewrite Qmult_0_l. change 0%Q with (inject_Z 0). by rewrite <- Zle_Qle.
  - assert (Hq : (0 < inject_Z d / 60000)%Q).
    { apply Qlt_shift_div_l; [done |]. rewrite Qmult_0_l.
      change 0%Q with (inject_Z 0). by rewrite <- Zlt_Qlt. }
    destruct (b64 (inject_Z d / 60000)) as [| | | r] eqn:Hb.
    + unfold b64 in Hb. destruct (Qcompare _ 0); [done | |];
        destruct (b64_pos _); done.
    + by left.
    + unfold b64 in Hb. apply Qgt_alt in Hq. rewrite Hq in Hb.
      destruct (b64_pos _); done.
    + right. exists r. split; [done |].
      assert (Hgrid : (inject_Z 1 * pow2 (-16) <= r)%Q).
      { apply (b64_lower (inject_Z d / 60000) 1 (-16)); try done.
        apply Qle_shift_div_l; [done |].
        apply (Qle_trans _ 1); [done |].
        change 1%Q with (inject_Z 1). rewrite <- Zle_Qle. lia. }
      by rewrite Qmult_1_l in Hgrid.
Qed.

(** [Math.round(n / minutes)] in binary64 is a non-negative integer when
    [minutes > 0] and [n] is a count below [2^53]. *)
Lemma wpm64_from_zero (n : nat) (d : Z) :
  (Z.of_nat n < 2 ^ 53)%Z →
  let minutes := js_div64 (Num (inject_Z d)) (Num 60000) in
  js_gt0 minutes = true →
  integer_from 0 (Math_round (js_div64 (of_nat n) minutes)).
Proof.
  intros Hn minutes Hgt.
  destruct (minutes64 d) as [Hnonpos Hpos]. fold minutes in Hnonpos, Hpos.
  destruct (Z.le_gt_cases d 0) as [Hd | Hd].
  { rewrite Hnonpos in Hgt by done. done. }
  destruct (Hpos ltac:(lia)) as [-> | (r & -> & Hr)].
  { by exists 0%Z. }
  assert (Hr0 : (0 < r)%Q).
  { apply (Qlt_le_trans _ (pow2 (-16))); [apply pow2_pos | done]. }
  unfold js_div64, of_nat, js_div.
  destruct (Qeq_bool r 0) eqn:Hz.
  { apply Qeq_bool_iff in Hz. rewrite Hz in Hr0. by apply Qlt_irrefl in Hr0. }
  destruct (b64_upper (inject_Z (Z.of_nat n) / r) (Z.of_nat n) 16)
    as (w & -> & Hw0 & _); try done.
  - apply Qle_shift_div_l; [done |]. rewrite Qmult_0_l.
    change 0%Q with (inject_Z 0). rewrite <- Zle_Qle. lia.
  - apply Qle_shift_div_r; [done |].
    rewrite <- Qmult_assoc. rewrite <- (Qmult_1_r (inject_Z (Z.of_nat n))) at 1.
    rewrite (Qmult_comm (inject_Z (Z.of_nat n)) 1), (Qmult_comm (inject_Z (Z.of_nat n))).
    apply Qmult_le_compat_r.
    + apply (Qle_trans _ (pow2 16 * pow2 (-16))); [done |].
      rewrite (Qmult_comm (pow2 16) r), (Qmult_comm (pow2 16)).
      apply Qmult_le_compat_r; [done | done].
    + change 0%Q with (inject_Z 0). rewrite <- Zle_Qle. lia.
  - cbn [Math_round]. eexists. split; [reflexivity |].
    change 0%Z with (Qfloor 0). apply Qfloor_resp_le.
    apply (Qle_trans _ (0 + 0)); [done |]. apply Qplus_le_compat; done.
Qed.

(** ** Runs with binary64 figures *)

Lemma handleTick64_rest (content : jsstring) (now : Z) (s : state) :
  currentPosition (handleTick64 content now s) = currentPosition s
  ∧ typedMap (handleTick64 content now s) = typedMap s
  ∧ isStarted (handleTick64 content now s) = isStarted s
  ∧ startTime (handleTick64 content now s) = startTime s
  ∧ isComposing (handleTick64 content now s) = isComposing s
  ∧ compositionBuffer (handleTick64 content now s) = compositionBuffer s
  ∧ timeouts (handleTick64 content now s) = timeouts s.
Proof.
  unfold handleTick64.
  destruct (isStarted s && bool_decide (0 < startTime s)%Z); [| done].
  destruct (js_gt0 _); case_bool_decide; done.
Qed.

Section Run64.

Variable content : jsstring.

Lemma handle64_keys_in_range now ev s :
  valid_event content ev →
  keys_in_range content s →
  keys_in_range content (handle64 content now ev s).
Proof.
  intros Hev Hs.
  destruct ev; try (by apply handle_keys_in_range).
  cbn [handle64].
  destruct (handleTick64_rest content now s) as (Hp & Hm & _ & _ & _ & _ & Hq).
  destruct Hs as ((Hpos & Hpq) & Hkeys & Hkq).
  unfold keys_in_range, positions_in_range. by rewrite Hp, Hm, Hq.
Qed.

Lemma handle64_metrics_sane now ev s :
  (Z.of_nat (length content) < 2 ^ 53)%Z →
  keys_in_range content s →
  metrics_sane content s →
  metrics_sane content (handle64 content now ev s).
Proof.
  intros Hlen Hs Hm.
  destruct ev; try (by apply handle_metrics_sane).
  cbn [handle64]. destruct Hs as (_ & Hkeys & _). destruct Hm as (Hw & Ha & He).
  unfold handleTick64.
  destruct (isStarted s && bool_decide (0 < startTime s)%Z); [| done].
  pose proof (errorCount_le_size content (typedMap s)) as Hec.
  pose proof (size_keys_bound (typedMap s) (length content) Hkeys) as Hsz.
  assert (Hw' : integer_from 0 (wpm
    (if js_gt0 (js_div64 (Num (inject_Z (now - startTime s))) (Num 60000))
     then setWpm (Math_round (js_div64 (of_nat (size (typedMap s)))
                    (js_div64 (Num (inject_Z (now - startTime s))) (Num 60000)))) s
     else s))).
  { destruct (js_gt0 _) eqn:Hgt; [| done]. apply wpm64_from_zero; [lia | done]. }
  case_bool_decide as Htyped.
  - split; [exact Hw' |]. split; [| cbn; lia].
    destruct (percent64_spec (size (typedMap s) - errorCount content (typedMap s))
                (size (typedMap s)) ltac:(lia) Htyped) as (z & Hz & Hrange & _).
    exists z. by split.
  - split; [exact Hw' |]. split; [| cbn; lia].
    by destruct (js_gt0 _).
Qed.

Lemma run64_keys_and_metrics evs : ∀ s,
  (Z.of_nat (length content) < 2 ^ 53)%Z →
  Forall (λ e : Z * event, valid_event content e.2) evs →
  keys_in_range content s → metrics_sane content s →
  keys_in_range content (run64 content evs s) ∧ metrics_sane content (run64 content evs s).
Proof.
  induction evs as [| [now ev] evs IH]; intros s Hlen Hevs Hk Hm; [done |].
  apply Forall_cons in Hevs as [Hev Hevs].
  cbn. apply IH; [done | done | by apply handle64_keys_in_range
                 | by apply handle64_metrics_sane].
Qed.

Lemma run64_keys evs : ∀ s,
  Forall (λ e : Z * event, valid_event content e.2) evs →
  keys_in_range content s →
  keys_in_range content (run64 content evs s).
Proof.
  induction evs as [| [now ev] evs IH]; intros s Hevs Hk; [done |].
  apply Forall_cons in Hevs as [Hev Hevs].
  cbn. apply IH; [done | by apply handle64_keys_in_range].
Qed.

End Run64.

(** X3. For a non-empty reference text the progress figure shown in the
    header, computed in binary64 as on line 240, is after any sequence of
    events an integer from 0 to 100. *)
Theorem progress_between_0_and_100 (content : jsstring) (evs : list (Z * event)) :
  content ≠ [] →
  Forall (λ e : Z * event, valid_event content e.2) evs →
  integer_between 0 100 (progress64 content (run64 content evs initial)).
Proof.
  intros Hne Hevs.
  destruct (run64_keys content evs initial Hevs (keys_in_range_initial content))
    as (_ & Hkeys & _).
  pose proof (size_keys_bound _ _ Hkeys) as Hsize.
  assert (HL : 0 < length content) by (destruct content; [done | cbn; lia]).
  unfold progress64.
  destruct (percent64_spec _ _ Hsize HL) as (z & Hz & Hrange & _).
  exists z. by split.
Qed.

Lemma progress_between_0_and_100_witness :
  let content := replicate 40 97%N in
  let evs := [ (1%Z, Input (replicate 24 97%N)); (2%Z, KeyDown Backspace) ] in
  content ≠ []
  ∧ Forall (λ e : Z * event, valid_event content e.2) evs
  ∧ integer_between 0 100 (progress64 content (run64 content evs initial))
  ∧ progress64 content (run64 content evs initial) = Num 57.
Proof.
  intros content evs.
  assert (Hne : content ≠ []) by discriminate.
  assert (Hevs : Forall (λ e : Z * event, valid_event content e.2) evs).
  { repeat (apply Forall_cons; split; [exact I |]). apply Forall_nil_2. }
  split; [exact Hne |]. split; [exact Hevs |].
  split; [exact (progress_between_0_and_100 content evs Hne Hevs) |].
  vm_compute. reflexivity.
Defined.

(** X4. The sampled metrics, computed in binary64 as on lines 48-54, never
    leave their ranges.  For a reference text shorter than [2^53] units (as
    every string is), after any sequence of events and whatever the clock
    readings, [wpm] is a non-negative integer, [accuracy] an integer from 0
    to 100 and [errors] at most the length of the text; none of them is
    ever [NaN] or infinite. *)
Theorem sampled_metrics_in_range (content : jsstring) (evs : list (Z * event)) :
  (Z.of_nat (length content) < 2 ^ 53)%Z →
  Forall (λ e : Z * event, valid_event content e.2) evs →
  let s := run64 content evs initial in
  integer_from 0 (wpm s)
  ∧ integer_between 0 100 (accuracy s)
  ∧ errors s ≤ length content.
Proof.
  intros Hlen Hevs s.
  exact (proj2 (run64_keys_and_metrics content evs initial Hlen Hevs
                  (keys_in_range_initial content) (metrics_sane_initial content))).
Qed.

Lemma sampled_metrics_in_range_witness :
  let content := js "abc" in
  let evs := [ (1000%Z, Input (js "abx")); (2600%Z, Tick); (900%Z, Tick) ] in
  (Z.of_nat (length content) < 2 ^ 53)%Z
  ∧ Forall (λ e : Z * event, valid_event content e.2) evs
  ∧ integer_from 0 (wpm (run64 content evs initial))
  ∧ integer_between 0 100 (accuracy (run64 content evs initial))
  ∧ wpm (run64 content evs initial) = Num 112
  ∧ accuracy (run64 content evs initial) = Num 67.
Proof.
  intros content evs.
  assert (Hlen : (Z.of_nat (length content) < 2 ^ 53)%Z) by reflexivity.
  assert (Hevs : Forall (λ e : Z * event, valid_event content e.2) evs).
  { repeat (apply Forall_cons; split; [exact I |]). apply Forall_nil_2. }
  destruct (sampled_metrics_in_range content evs Hlen Hevs) as (Hw & Ha & _).
  split; [exact Hlen |]. split; [exact Hevs |].
  split; [exact Hw |]. split; [exact Ha |].
  split; vm_compute; reflexivity.
Defined.

(** Three figures where rounding matters: 23 right out of 40 is shown as
    accuracy 57 (the exact quotient would give 58), 3 characters after 1600
    milliseconds as 112 words per minute (not 113), 23 typed of 40 as
    progress 57. *)
Example binary64_figures :
  let content := replicate 40 97%N in
  let evs := [ (1000%Z, Input (replicate 23 97%N ++ replicate 17 98%N));
               (2600%Z, Tick) ] in
  let s := run64 content evs initial in
  accuracy s = Num 57
  ∧ wpm (run64 (replicate 3 97%N) [(1000%Z, Input (replicate 3 97%N)); (2600%Z, Tick)] initial)
    = Num 112
  ∧ progress64 content (run64 content [(1000%Z, Input (replicate 23 97%N))] initial) = Num 57.
Proof. vm_compute. repeat split. Qed.

(** ** The exact figures and the binary64 figures *)

Lemma wpm64_none (d : Z) :
  let minutes := js_div64 (Num (inject_Z d)) (Num 60000) in
  (js_gt0 minutes = true ↔ (0 < d)%Z)
  ∧ (js_gt0 minutes = true → Math_round (js_div64 (of_nat 0) minutes) = Num 0).
Proof.
  intros minutes. destruct (minutes64 d) as [Hnonpos Hpos]. fold minutes in Hnonpos, Hpos.
  assert (Hiff : js_gt0 minutes = true ↔ (0 < d)%Z).
  { split.
    - intros Hgt. destruct (Z.le_gt_cases d 0) as [Hd | Hd]; [| lia].
      rewrite Hnonpos in Hgt by done. done.
    - intros Hd. destruct (Hpos Hd) as [-> | (r & -> & Hr)]; [done |].
      cbn. apply negb_true_iff, not_true_iff_false. rewrite Qle_bool_iff.
      intros Hle. pose proof (pow2_pos (-16)) as Hp.
      apply (Qlt_irrefl 0). apply (Qlt_le_trans _ _ _ Hp). by apply (Qle_trans _ r). }
  split; [exact Hiff |].
  intros Hgt. apply Hiff in Hgt.
  destruct (Hpos Hgt) as [-> | (r & -> & Hr)]; [done |].
  assert (Hr0 : (0 < r)%Q).
  { apply (Qlt_le_trans _ (pow2 (-16))); [apply pow2_pos | done]. }
  unfold js_div64, of_nat, js_div.
  destruct (Qeq_bool r 0) eqn:Hz.
  { apply Qeq_bool_iff in Hz. rewrite Hz in Hr0. by apply Qlt_irrefl in Hr0. }
  assert (Hq : (inject_Z (Z.of_nat 0) / r == 0)%Q).
  { change (inject_Z (Z.of_nat 0)) with 0%Q. unfold Qdiv. apply Qmult_0_l. }
  unfold b64. apply Qeq_alt in Hq. by rewrite Hq.
Qed.

Section Agreement.

Variable content : jsstring.

(** Where the claims above evaluate the figures, rounding changes nothing. *)
Lemma progress64_full (s : state) :
  content ≠ [] → size (typedMap s) = length content →
  progress64 content s = Num 100 ∧ progress content s = Num 100.
Proof.
  intros Hne Hsize.
  assert (HL : 0 < length content) by (destruct content; [done | cbn; lia]).
  split.
  - unfold progress64. rewrite Hsize.
    destruct (percent64_spec (length content) (length content) ltac:(lia) HL)
      as (z & -> & _ & Hfull & _).
    by rewrite Hfull.
  - unfold progress. rewrite Hsize. by apply percent_full.
Qed.

Lemma progress64_empty (s : state) :
  content ≠ [] → typedMap s = ∅ →
  progress64 content s = Num 0 ∧ progress content s = Num 0.
Proof.
  intros Hne Hm.
  assert (HL : 0 < length content) by (destruct content; [done | cbn; lia]).
  split.
  - unfold progress64. rewrite Hm, map_size_empty.
    destruct (percent64_spec 0 (length content) ltac:(lia) HL) as (z & -> & _ & _ & Hnone).
    by rewrite Hnone.
  - unfold progress. rewrite Hm, map_size_empty. by apply percent_none.
Qed.

(** A tick over a map without mismatches: no errors, accuracy 100, in
    binary64 as with exact quotients. *)
Lemma handleTick64_all_match (now : Z) (s : state) :
  isStarted s = true → (0 < startTime s)%Z →
  0 < size (typedMap s) → errorCount content (typedMap s) = 0 →
  errors (handleTick64 content now s) = 0
  ∧ accuracy (handleTick64 content now s) = Num 100
  ∧ errors (handleTick content now s) = 0
  ∧ accuracy (handleTick content now s) = Num 100.
Proof.
  intros Hst Ht Hsize Hec. unfold handleTick64, handleTick.
  rewrite Hst, bool_decide_eq_true_2 by done. cbn [andb].
  rewrite Hec, Nat.sub_0_r, bool_decide_eq_true_2 by done.
  destruct (percent64_spec (size (typedMap s)) (size (typedMap s)) ltac:(lia) Hsize)
    as (z & -> & _ & Hfull & _).
  rewrite Hfull, percent_full by done.
  split; [by destruct (js_gt0 _) |]. split; [by destruct (js_gt0 _) |].
  split; by destruct (js_gt0 _).
Qed.

(** A tick over an empty map is the same state in binary64 as with exact
    quotients. *)
Lemma handleTick64_empty_map (now : Z) (s : state) :
  typedMap s = ∅ → handleTick64 content now s = handleTick content now s.
Proof.
  intros Hm. unfold handleTick64, handleTick.
  destruct (isStarted s && bool_decide (0 < startTime s)%Z); [| done].
  rewrite Hm, map_size_empty.
  rewrite (bool_decide_eq_false_2 (0 < 0)) by lia.
  destruct (wpm64_none (now - startTime s)) as [Hiff Hzero].
  destruct (js_gt0 (js_div64 _ _)) eqn:Hgt64.
  - rewrite Hzero by done.
    assert (Hgt : js_gt0 (js_div (Num (inject_Z (now - startTime s))) (Num 60000)) = true).
    { apply minutes_gt0. by apply Hiff. }
    by rewrite Hgt, (wpm_none _ Hgt).
  - assert (Hgt : js_gt0 (js_div (Num (inject_Z (now - startTime s))) (Num 60000)) = false).
    { apply not_true_iff_false. rewrite minutes_gt0. rewrite <- Hiff. congruence. }
    by rewrite Hgt.
Qed.

Lemma handle_same_but_figures now ev s1 s2 :
  same_but_figures s1 s2 →
  same_but_figures (handle64 content now ev s1) (handle content now ev s2).
Proof.
  intros (Hp & Hm & Hst & Ht & He & Hc & Hb & Hq).
  destruct s1 as [p1 m1 st1 t1 w1 a1 e1 c1 b1 q1], s2 as [p2 m2 st2 t2 w2 a2 e2 c2 b2 q2].
  cbn in Hp, Hm, Hst, Ht, He, Hc, Hb, Hq. subst.
  destruct ev as [ty data clip | text | k | | data | data | target | |];
    cbn [handle64 handle].
  - unfold handleBeforeInput, processInput. cbn.
    repeat (case_match; try done).
  - unfold handleInput, processInput. cbn.
    repeat (case_match; try done).
  - unfold handleKeyDown. cbn. repeat (case_match; try done).
  - done.
  - done.
  - unfold handleCompositionEnd. cbn. repeat (case_match; try done).
  - by destruct target.
  - unfold handleTimeout, processInput. cbn.
    repeat (case_match; try done).
  - unfold handleTick64, handleTick. cbn.
    repeat (case_match; try done).
Qed.

(** A run with binary64 figures and the run with exact quotients agree on
    everything but the sampled [wpm] and [accuracy]: what the theorems above
    say about map, cursor, session clock, error count and pending callbacks
    holds for both. *)
Lemma run64_same_but_figures evs : ∀ s1 s2,
  same_but_figures s1 s2 →
  same_but_figures (run64 content evs s1) (run content evs s2).
Proof.
  induction evs as [| [now ev] evs IH]; intros s1 s2 Hs; [done |].
  cbn. apply IH. by apply handle_same_but_figures.
Qed.

End Agreement.

(** Typing the reference text verbatim, seen through the binary64 figures:
    progress 100, and after any tick no errors and accuracy 100. *)
Lemma verbatim_metrics_binary64 (content : jsstring) (now : Z) :
  content ≠ [] →
  CR ∉ content →
  let s := commitVerbatim content now in
  progress64 content s = Num 100
  ∧ ∀ later, errors (handleTick64 content later s) = 0
             ∧ accuracy (handleTick64 content later s) = Num 100.
Proof.
  intros Hne Hcr s.
  destruct (commitVerbatim_state content now Hcr) as [_ Hmap].
  destruct (commitEach_metrics content now ((λ u, [u]) <$> content) initial)
    as (_ & Hacc & Herr).
  fold (commitVerbatim content now) in Hacc, Herr. fold s in Hmap, Hacc, Herr.
  assert (HL : 0 < length content) by (destruct content; [done | cbn; lia]).
  assert (Hsize : size (typedMap s) = length content).
  { rewrite Hmap, size_map_seq. by rewrite length_fmap. }
  assert (Hec : errorCount content (typedMap s) = 0).
  { rewrite Hmap. apply errorCount_verbatim. }
  split; [by apply progress64_full |].
  intros later.
  destruct (isStarted s && bool_decide (0 < startTime s)%Z) eqn:Hrun.
  - apply andb_true_iff in Hrun as [Hst Ht]. apply bool_decide_eq_true in Ht.
    destruct (handleTick64_all_match content later s Hst Ht ltac:(lia) Hec)
      as (He & Ha & _).
    by split.
  - unfold handleTick64. rewrite Hrun. by split.
Qed.
